(** * GraphService: request coalescing, batching and multi-key caching

    A shallow embedding of [src/GraphService.ts].  The file follows the
    source top-down:

    - [Js]        JavaScript values the code inspects (errors, truthiness);
    - [Fetchers]  [buildProfile], [buildErrorFromResponse] and the four
                  [...Internal] functions, as functions of the network
                  outcome they await;
    - [Chain]     [getAllManagers], the bounded ascent;
    - [Batcher]   [enqueueRequest], [processBatch], [processResponse];
    - [Cache]     the four caches, the promises they hold, the [then]
                  callbacks of [cacheByIdOrEmail] and the microtask queue
                  that runs them.

    Promises are modelled by what the code can observe of them: a state
    that is settled at most once, and the reactions registered with
    [then], which run as separate microtasks after the settlement. *)

From stdpp Require Import gmap strings list pretty.
From Stdlib Require Import ZArith Permutation.

Local Open Scope Z_scope.

(* ===================================================================== *)
(** ** JavaScript values                                                  *)
(* ===================================================================== *)

Module Js.

(** An [Error] object, seen through the two properties the code reads
    or writes. *)
Record JsError := mkError { name : string; message : string }.

(** [Error(msg)] / [new Error(msg)]: the name is inherited from
    [Error.prototype]. *)
Definition Error (msg : string) : JsError :=
  {| name := "Error"; message := msg |}.

(** What the engine throws for [undefined.onResolve]. *)
Definition TypeError (msg : string) : JsError :=
  {| name := "TypeError"; message := msg |}.

(** The outcome of an awaited computation: a value or a thrown error. *)
Inductive Result (A : Type) : Type :=
| Ok (a : A)
| Throw (e : JsError).
Global Arguments Ok {A} a.
Global Arguments Throw {A} e.

Global Instance Result_ret : MRet Result := λ A a, Ok a.
Global Instance Result_bind : MBind Result := λ A B f m,
  match m with
  | Ok a => f a
  | Throw e => Throw e
  end.

Definition is_ok {A} (r : Result A) : bool :=
  match r with Ok _ => true | Throw _ => false end.

(** The JSON values that can sit in the [accountEnabled] field. *)
Inductive JsValue :=
| JUndefined
| JNull
| JBool (b : bool)
| JNumber (z : Z)
| JString (s : string).

(** [v !== false] *)
Definition strict_ne_false (v : JsValue) : bool :=
  match v with
  | JBool false => false
  | _ => true
  end.

(** Truthiness of an optional string property: [undefined], [null] and
    the empty string are falsy. *)
Definition truthy (o : option string) : bool :=
  match o with
  | Some s => negb (String.eqb s "")
  | None => false
  end.

Global Instance JsError_eq_dec : EqDecision JsError.
Proof. solve_decision. Defined.

Global Instance JsValue_eq_dec : EqDecision JsValue.
Proof. solve_decision. Defined.

End Js.
Import Js.

(* ===================================================================== *)
(** ** Profiles and the fetchers                                          *)
(* ===================================================================== *)

Module Fetchers.

(** Modelled from the spec: [IPersonaProfile] is declared in
    [./Types], which is not part of the sources; the fields are those
    [buildProfile] fills in and the spec lists for a Profile.  Optional
    properties are [None] when [undefined] or [null]. *)
Record IPersonaProfile := mkProfile {
  id : string;
  displayName : option string;
  jobTitle : option string;
  department : option string;
  email : option string;
  officeLocation : option string;
  city : option string;
  businessPhone : option string;
  imAddress : option string;
  companyName : option string
}.

(** The JSON object of a user as the directory returns it ([data: any]
    in the source), seen through the properties the code reads. *)
Record GraphUser := mkGraphUser {
  g_id : string;
  g_displayName : option string;
  g_jobTitle : option string;
  g_mail : option string;
  g_department : option string;
  g_officeLocation : option string;
  g_city : option string;
  g_businessPhones : option (list string);
  g_imAddresses : option (list string);
  g_companyName : option string;
  g_accountEnabled : JsValue
}.

(** [(a && a.length) ? a[0] : undefined] *)
Definition first_or_undefined (a : option (list string)) : option string :=
  match a with
  | Some l => if (length l =? 0)%nat then None else l !! 0%nat
  | None => None
  end.

Definition buildProfile (data : GraphUser) : IPersonaProfile :=
  {| id := g_id data;
     displayName := g_displayName data;
     jobTitle := g_jobTitle data;
     department := g_department data;
     email := g_mail data;
     officeLocation := g_officeLocation data;
     city := g_city data;
     businessPhone := first_or_undefined (g_businessPhones data);
     imAddress := first_or_undefined (g_imAddresses data);
     companyName := g_companyName data |}.

(** A [Response] of the Fetch API: status line plus the outcome of
    decoding the body ([response.json()] or [response.blob()], which may
    throw). *)
Record Response (A : Type) := mkResponse {
  status : Z;
  statusText : string;
  decoded : Result A
}.
Global Arguments mkResponse {A} _ _ _.
Global Arguments status {A} _.
Global Arguments statusText {A} _.
Global Arguments decoded {A} _.

(** [response.ok]: the status is in the range 200-299. *)
Definition ok {A} (response : Response A) : bool :=
  (200 <=? status response) && (status response <=? 299).

Definition buildErrorFromResponse {A} (response : Response A) : JsError :=
  let ex := Error (statusText response) in
  if status response =? 404
  then {| name := "NotFound"; message := message ex |}
  else ex.

(** A JavaScript number as the code uses the status of a batch entry:
    compared with 400, and turned into a string by [Error(...)].  The
    statuses are integers; [number_text] is the string JavaScript makes
    of the number. *)
Record JsNumber := mkNumber {
  number_value : Z;
  number_text : string
}.

(** A status code, or any other integer below 2^53 in absolute value:
    JavaScript prints it as its decimal numeral. *)
Definition ofInteger (z : Z) : JsNumber := mkNumber z (pretty z).
Coercion ofInteger : Z >-> JsNumber.

(** What [body.error && body.error.message] evaluates to ([any] in the
    source), by the way [||] and [Error(...)] treat it. *)
Inductive ErrorMessage :=
| NoMessage
    (* a falsy value that is no string: the error or the message is
       missing or [null], or is [0], [NaN] or [false] *)
| Text (m : string)
    (* a string, which is falsy when empty *)
| Other (coerced : string).
    (* any other value, all of them truthy: a number, [true], an array
       or an object; [coerced] is the string JavaScript makes of it
       (the empty string for an empty array) *)

(** The body of one entry of a batch response when it is an object,
    seen through what [resolveProfileInternal] reads: the error message
    and the user object. *)
Record BatchBody := mkBatchBody {
  error_message : ErrorMessage;
  user : GraphUser
}.

(** [type BatchResponse = { id; status; headers; body }] (the headers
    are never read).  The body is [None] when the entry has none or
    when it is [null]. *)
Record BatchResponse := mkBatchResponse {
  res_id : string;
  res_status : JsNumber;
  res_body : option BatchBody
}.

(** The entries for which [(body && body.error && body.error.message)]
    is falsy: those without a body, and those whose body has no message
    that is truthy. *)
Definition unexplained (entry : BatchResponse) : Prop :=
  match res_body entry with
  | Some data => error_message data = NoMessage ∨ error_message data = Text ""
  | None => True
  end.

(** [(body && body.error && body.error.message) || status], turned into
    the message of [Error(...)]. *)
Definition message_or_status (response : BatchResponse) : string :=
  let status := number_text (res_status response) in
  match res_body response with
  | Some body =>
      match error_message body with
      | NoMessage => status
      | Text m => if truthy (Some m) then m else status
      | Other coerced => coerced
      end
  | None => status
  end.

(** [resolveProfileInternal], as a function of what
    [await enqueueRequest(...)] yields.  [buildProfile] reads [data.id]
    first, which throws when there is no body (the text of that
    [TypeError] is the engine's own). *)
Definition resolveProfileInternal (enqueued : Result BatchResponse)
  : Result IPersonaProfile :=
  response ← enqueued;
  if number_value (res_status response) <? 400
  then match res_body response with
       | Some data => Ok (buildProfile (user data))
       | None => Throw (TypeError "Cannot read properties of undefined (reading 'id')")
       end
  else Throw (Error (message_or_status response)).

(** The three direct fetchers, as functions of what
    [await getAuthToken()] and [await fetch(request)] yield. *)
Definition getManagerInternal (adToken : Result string)
    (fetched : Result (Response GraphUser)) : Result IPersonaProfile :=
  _ ← adToken;
  response ← fetched;
  if ok response
  then data ← decoded response; Ok (buildProfile data)
  else Throw (buildErrorFromResponse response).

(** The decoded body stands for the object URL that
    [URL.createObjectURL] makes for the blob. *)
Definition getPhotoUrlInternal (adToken : Result string)
    (fetched : Result (Response string)) : Result string :=
  _ ← adToken;
  response ← fetched;
  if ok response
  then photoData ← decoded response; Ok photoData
  else Throw (buildErrorFromResponse response).

(** The decoded body is [data.value]. *)
Definition getDirectsInternal (adToken : Result string)
    (fetched : Result (Response (list GraphUser)))
  : Result (list IPersonaProfile) :=
  _ ← adToken;
  response ← fetched;
  if ok response
  then value ← decoded response;
       Ok (buildProfile <$>
             filter (λ p : GraphUser, strict_ne_false (g_accountEnabled p) = true)
                    (value : list GraphUser))
  else Throw (buildErrorFromResponse response).

End Fetchers.
Import Fetchers.

(* ===================================================================== *)
(** ** Chain traversal                                                    *)
(* ===================================================================== *)

Module Chain.
Section Chain.

(** [getManager] is taken as any resolver: it may answer differently
    over time ([World] is whatever it depends on and changes), and the
    relation it describes may be cyclic. *)
Context {World : Type}.
Variable getManager : string → World → Result IPersonaProfile * World.

Definition maxDepth : nat := 15.

(** What the traversal leaves behind: the keys it passed to
    [getManager], oldest first, and the world after the last call. *)
Record Run := mkRun {
  returned : Result (list IPersonaProfile);
  lookups : list string;
  world : World
}.

(** The body of the [try]: the [for] loop with [fuel = maxDepth - i]
    iterations left.  The outcome is the accumulated [res] together
    with the error that left the loop, if any. *)
Fixpoint loop (fuel : nat) (emailOrId : string) (res : list IPersonaProfile)
    (keys : list string) (w : World)
  : list IPersonaProfile * option JsError * list string * World :=
  match fuel with
  | O => (res, None, keys, w)
  | S fuel' =>
      match getManager emailOrId w with
      | (Ok manager, w') =>
          loop fuel' (id manager) (res ++ [manager]) (keys ++ [emailOrId]) w'
      | (Throw e, w') => (res, Some e, keys ++ [emailOrId], w')
      end
  end.

Definition getAllManagers (emailOrId : string) (w : World) : Run :=
  match loop maxDepth emailOrId [] [] w with
  | (res, None, keys, w') => mkRun (Ok res) keys w'
  | (res, Some e, keys, w') =>
      if decide (name e ≠ "NotFound")
      then mkRun (Throw e) keys w'
      else mkRun (Ok res) keys w'
  end.

(** [ascent key w ms key' w']: starting at [key], the resolver answers
    the profiles [ms] one after the other, each lookup using the id of
    the previous answer, and leaves the traversal at [key']. *)
Inductive ascent : string → World → list IPersonaProfile → string → World → Prop :=
| ascent_nil key w : ascent key w [] key w
| ascent_cons key w manager w' ms key'' w'' :
    getManager key w = (Ok manager, w') →
    ascent (id manager) w' ms key'' w'' →
    ascent key w (manager :: ms) key'' w''.

End Chain.
End Chain.

(* ===================================================================== *)
(** ** The batcher                                                        *)
(* ===================================================================== *)

Module Batcher.

(** An entry of [queue].  [onResolve] and [onReject] are the two
    functions of the promise [p] made in [enqueueRequest]; [calls] records
    their invocations, oldest first. *)
Record PendingRequest := mkPending {
  req_id : string;
  url : string;
  method : string;
  calls : list (Result BatchResponse)
}.

Definition onResolve (req : PendingRequest) (res : BatchResponse) : PendingRequest :=
  {| req_id := req_id req; url := url req; method := method req;
     calls := calls req ++ [Ok res] |}.

Definition onReject (req : PendingRequest) (e : JsError) : PendingRequest :=
  {| req_id := req_id req; url := url req; method := method req;
     calls := calls req ++ [Throw e] |}.

(** The state of the promise [p]: the first call settles it, every later
    call of either function is ignored. *)
Definition settled (req : PendingRequest) : option (Result BatchResponse) :=
  head (calls req).

(** The module-level variables [queue], [lastRequestId] and
    [batchTimer].  The property names of [queue] are the decimal
    numerals of the request ids. *)
Record State := mkState {
  queue : gmap string PendingRequest;
  lastRequestId : N;
  batchTimer : option N
}.

Definition initial : State :=
  {| queue := ∅; lastRequestId := 0%N; batchTimer := None |}.

(** The loop of [processResponse]: [processingQueue[res.id].onResolve(res)]
    for each entry in turn; reading [onResolve] of [undefined] throws. *)
Fixpoint dispatch (responses : list BatchResponse)
    (processingQueue : gmap string PendingRequest)
  : Result unit * gmap string PendingRequest :=
  match responses with
  | [] => (Ok (), processingQueue)
  | res :: rest =>
      match processingQueue !! res_id res with
      | Some req =>
          dispatch rest (<[res_id res := onResolve req res]> processingQueue)
      | None =>
          (Throw (TypeError "Cannot read properties of undefined"),
           processingQueue)
      end
  end.

(** The entries of a response collection that carry the id [i], in
    their order of arrival. *)
Definition answered (i : string) (responses : list BatchResponse)
  : list BatchResponse :=
  filter (λ res, res_id res = i) responses.

(** The decoded body of the batch response is [data.responses]. *)
Definition processResponse (response : Response (list BatchResponse))
    (processingQueue : gmap string PendingRequest)
  : Result unit * gmap string PendingRequest :=
  if ok response then
    match decoded response with
    | Ok responses => dispatch responses processingQueue
    | Throw e => (Throw e, processingQueue)
    end
  else (Throw (buildErrorFromResponse response), processingQueue).

(** The [catch] block of [processBatch]. *)
Definition rejectAll (e : JsError) (processingQueue : gmap string PendingRequest)
  : gmap string PendingRequest :=
  (λ req, onReject req e) <$> processingQueue.

(** What a flush leaves behind: whether [processBatch] itself threw, the
    module state, and the snapshot [processingQueue] with the calls made
    on its promises. *)
Record Flush := mkFlush {
  thrown : option JsError;
  after : State;
  snapshot : gmap string PendingRequest
}.

(** [processBatch], as a function of what [await getAuthToken()] and
    [await fetch(batchRequest)] yield. *)
Definition processBatch (adToken : Result string)
    (fetched : Result (Response (list BatchResponse))) (st : State) : Flush :=
  if decide (size (queue st) = 0%nat) then mkFlush None st ∅
  else
    let processingQueue := queue st in
    let st' := {| queue := ∅; lastRequestId := lastRequestId st;
                  batchTimer := batchTimer st |} in
    match adToken with
    | Throw e => mkFlush (Some e) st' processingQueue
    | Ok _ =>
        match fetched with
        | Throw e => mkFlush None st' (rejectAll e processingQueue)
        | Ok batchResponse =>
            match processResponse batchResponse processingQueue with
            | (Ok _, pq) => mkFlush None st' pq
            | (Throw e, pq) => mkFlush None st' (rejectAll e pq)
            end
        end
    end.

(** [enqueueRequest] up to [return p]: the request is filed under the
    numeral of the new id; when the queue has reached 20 entries the
    batch is processed before the timer is re-armed.  The result names
    the request whose promise is [p], or carries what the awaited
    [processBatch] threw. *)
Definition enqueueRequest (relativeUrl method : string)
    (adToken : Result string)
    (fetched : Result (Response (list BatchResponse))) (st : State)
  : Result string * State * option Flush :=
  let n := (lastRequestId st + 1)%N in
  let key : string := pretty n in
  let st1 := {| queue := <[key := mkPending key relativeUrl method []]> (queue st);
                lastRequestId := n;
                batchTimer := batchTimer st |} in
  let arm (s : State) := {| queue := queue s; lastRequestId := lastRequestId s;
                            batchTimer := Some n |} in
  if decide (20 ≤ size (queue st1))%nat then
    let f := processBatch adToken fetched st1 in
    match thrown f with
    | Some e => (Throw e, after f, Some f)
    | None => (Ok key, arm (after f), Some f)
    end
  else (Ok key, arm st1, None).

End Batcher.

(* ===================================================================== *)
(** ** The four caches                                                    *)
(* ===================================================================== *)

Module Cache.

(** The cache objects are read with [cache[key]] and tested for
    truthiness.  A promise is an object, hence truthy, and a key that was
    never assigned reads [undefined]: an object used this way is a finite
    map from keys to promises.  The keys are user ids and email
    addresses; the property names every object inherits from
    [Object.prototype] are not among them. *)

(** The four operations, which also name the four cache objects. *)
Inductive Op := Profile | Photo | Manager | Directs.

Global Instance Op_eq_dec : EqDecision Op.
Proof. solve_decision. Defined.

(** What a promise of one of the caches is fulfilled with. *)
Inductive Value :=
| VProfile (profile : IPersonaProfile)
| VPhoto (url : string)
| VDirects (directs : list IPersonaProfile).

Inductive PromiseState :=
| Pending
| Fulfilled (v : Value)
| Rejected (e : JsError).

(** The two [then] callbacks of the module.  The [catch] handlers that
    follow them are empty, so a rejection runs nothing. *)
Inductive Reaction :=
| CacheValue (value : nat) (cacheStorage : Op)
    (* profile => { cacheStorage[profile.id] = value; ... } *)
| CacheDirects.
    (* directs => { for (const direct of directs) ... } *)

(** A promise object.  Promises are named by their index in the store,
    which is their identity: two cache entries hold the same future
    when they hold the same index.  [made_by] is the lookup whose
    [...Internal] call made the promise ([None] for
    [Promise.resolve(direct)]).  [reactions] are the callbacks registered
    while the promise is pending, in registration order. *)
Record Promise := mkPromise {
  state : PromiseState;
  reactions : list Reaction;
  made_by : option (Op * string)
}.

Definition Job : Type := Reaction * Value.

Record State := mkState {
  photosCache : gmap string nat;
  profilesCache : gmap string nat;
  managersCache : gmap string nat;
  directsCache : gmap string nat;
  promises : list Promise;
  microtasks : list Job;
  fetches : list (Op * string)
}.

Definition initial : State :=
  {| photosCache := ∅; profilesCache := ∅; managersCache := ∅;
     directsCache := ∅; promises := []; microtasks := []; fetches := [] |}.

Definition cache (c : Op) (s : State) : gmap string nat :=
  match c with
  | Profile => profilesCache s
  | Photo => photosCache s
  | Manager => managersCache s
  | Directs => directsCache s
  end.

(** [cacheStorage[key] = value] *)
Definition store (c : Op) (key : string) (value : nat) (s : State) : State :=
  match c with
  | Profile =>
      mkState (photosCache s) (<[key := value]> (profilesCache s))
        (managersCache s) (directsCache s) (promises s) (microtasks s) (fetches s)
  | Photo =>
      mkState (<[key := value]> (photosCache s)) (profilesCache s)
        (managersCache s) (directsCache s) (promises s) (microtasks s) (fetches s)
  | Manager =>
      mkState (photosCache s) (profilesCache s)
        (<[key := value]> (managersCache s)) (directsCache s) (promises s)
        (microtasks s) (fetches s)
  | Directs =>
      mkState (photosCache s) (profilesCache s) (managersCache s)
        (<[key := value]> (directsCache s)) (promises s) (microtasks s) (fetches s)
  end.

Definition with_promises (ps : list Promise) (s : State) : State :=
  mkState (photosCache s) (profilesCache s) (managersCache s) (directsCache s)
    ps (microtasks s) (fetches s).

Definition with_microtasks (js : list Job) (s : State) : State :=
  mkState (photosCache s) (profilesCache s) (managersCache s) (directsCache s)
    (promises s) js (fetches s).

Definition with_fetches (fs : list (Op * string)) (s : State) : State :=
  mkState (photosCache s) (profilesCache s) (managersCache s) (directsCache s)
    (promises s) (microtasks s) fs.

(** A new promise object. *)
Definition alloc (pr : Promise) (s : State) : nat * State :=
  (length (promises s), with_promises (promises s ++ [pr]) s).

(** The call of one of the four [...Internal] functions: it starts the
    one logical request of the lookup and hands back a pending promise. *)
Definition startFetch (op : Op) (emailOrId : string) (s : State) : nat * State :=
  alloc (mkPromise Pending [] (Some (op, emailOrId)))
        (with_fetches (fetches s ++ [(op, emailOrId)]) s).

(** [Promise.resolve(direct)] *)
Definition Promise_resolve (v : Value) (s : State) : nat * State :=
  alloc (mkPromise (Fulfilled v) [] None) s.

(** [p.then(callback).catch(() => {})]: on a pending promise the
    callback is registered; on a fulfilled one it is queued as a
    microtask; on a rejected one only the empty handler would run. *)
Definition then_ (p : nat) (r : Reaction) (s : State) : State :=
  match promises s !! p with
  | Some pr =>
      match state pr with
      | Pending =>
          with_promises
            (<[p := mkPromise Pending (reactions pr ++ [r]) (made_by pr)]> (promises s)) s
      | Fulfilled v => with_microtasks (microtasks s ++ [(r, v)]) s
      | Rejected _ => s
      end
  | None => s
  end.

(** [profilePromise] is [None] when the expression passed for it is
    [undefined]. *)
Definition cacheByIdOrEmail (profilePromise : option nat) (value : nat)
    (cacheStorage : Op) (s : State) : State :=
  match profilePromise with
  | None => s
  | Some p => then_ p (CacheValue value cacheStorage) s
  end.

(** The bodies of [resolveProfile], [getPhotoUrl], [getManager] and
    [getDirects].  Each returns what it reads back from its cache.  (The
    functions are [async]: the caller receives a wrapper promise that
    follows the cached one.) *)
Definition resolveProfile (emailOrId : string) (s : State) : option nat * State :=
  let s' :=
    match profilesCache s !! emailOrId with
    | None =>
        let '(profilePromise, s1) := startFetch Profile emailOrId s in
        let s2 := store Profile emailOrId profilePromise s1 in
        cacheByIdOrEmail (Some profilePromise) profilePromise Profile s2
    | Some _ => s
    end in
  (profilesCache s' !! emailOrId, s').

Definition getPhotoUrl (emailOrId : string) (s : State) : option nat * State :=
  let s' :=
    match photosCache s !! emailOrId with
    | None =>
        let '(photoPromise, s1) := startFetch Photo emailOrId s in
        let s2 := store Photo emailOrId photoPromise s1 in
        match photosCache s2 !! emailOrId with
        | Some value =>
            cacheByIdOrEmail (profilesCache s2 !! emailOrId) value Photo s2
        | None => s2
        end
    | Some _ => s
    end in
  (photosCache s' !! emailOrId, s').

Definition getManager (emailOrId : string) (s : State) : option nat * State :=
  let s' :=
    match managersCache s !! emailOrId with
    | None =>
        let '(mngrProfilePromise, s1) := startFetch Manager emailOrId s in
        let s2 := store Manager emailOrId mngrProfilePromise s1 in
        let s3 := cacheByIdOrEmail (profilesCache s2 !! emailOrId)
                    mngrProfilePromise Manager s2 in
        cacheByIdOrEmail (Some mngrProfilePromise) mngrProfilePromise Profile s3
    | Some _ => s
    end in
  (managersCache s' !! emailOrId, s').

Definition getDirects (emailOrId : string) (s : State) : option nat * State :=
  let s' :=
    match directsCache s !! emailOrId with
    | None =>
        let '(directsPromise, s1) := startFetch Directs emailOrId s in
        let s2 := store Directs emailOrId directsPromise s1 in
        let s3 := cacheByIdOrEmail (profilesCache s2 !! emailOrId)
                    directsPromise Directs s2 in
        then_ directsPromise CacheDirects s3
    | Some _ => s
    end in
  (directsCache s' !! emailOrId, s').

Definition call (op : Op) (emailOrId : string) (s : State) : option nat * State :=
  match op with
  | Profile => resolveProfile emailOrId s
  | Photo => getPhotoUrl emailOrId s
  | Manager => getManager emailOrId s
  | Directs => getDirects emailOrId s
  end.

(** The state a lookup of an absent key leaves behind, spelled out:
    the new promise is filed under the key ([filed]) and the callbacks
    are registered ([missed]).  [call_miss_state] below shows that this
    is what [call] computes. *)
Definition filed (op : Op) (emailOrId : string) (s : State) : State :=
  store op emailOrId (length (promises s))
    (with_promises (promises s ++ [mkPromise Pending [] (Some (op, emailOrId))])
       (with_fetches (fetches s ++ [(op, emailOrId)]) s)).

Definition missed (op : Op) (emailOrId : string) (s : State) : State :=
  let n := length (promises s) in
  let known := profilesCache s !! emailOrId in
  match op with
  | Profile => then_ n (CacheValue n Profile) (filed op emailOrId s)
  | Photo => cacheByIdOrEmail known n Photo (filed op emailOrId s)
  | Manager =>
      then_ n (CacheValue n Profile)
        (cacheByIdOrEmail known n Manager (filed op emailOrId s))
  | Directs =>
      then_ n CacheDirects (cacheByIdOrEmail known n Directs (filed op emailOrId s))
  end.

(** The body of the callback in [cacheByIdOrEmail]. *)
Definition cacheValue (value : nat) (cacheStorage : Op)
    (profile : IPersonaProfile) (s : State) : State :=
  let s1 := store cacheStorage (id profile) value s in
  match email profile with
  | Some mail => if truthy (Some mail) then store cacheStorage mail value s1 else s1
  | None => s1
  end.

(** The body of the callback in [getDirects]: the two arguments of
    [cacheByIdOrEmail] are two new promises, both already fulfilled. *)
Definition cacheDirect (s : State) (direct : IPersonaProfile) : State :=
  let '(a, s1) := Promise_resolve (VProfile direct) s in
  let '(b, s2) := Promise_resolve (VProfile direct) s1 in
  cacheByIdOrEmail (Some a) b Profile s2.

Definition cacheDirects (directs : list IPersonaProfile) (s : State) : State :=
  foldl cacheDirect s directs.

(** Running one microtask.  A callback only ever receives the kind of
    value its promise is typed with; the other combinations do not
    occur and do nothing here. *)
Definition runJob (j : Job) (s : State) : State :=
  match j with
  | (CacheValue value cacheStorage, VProfile profile) =>
      cacheValue value cacheStorage profile s
  | (CacheDirects, VDirects directs) => cacheDirects directs s
  | _ => s
  end.

(** What the network hands to the [...Internal] function that made a
    promise.  For a profile it is the settlement of the batcher's
    promise for the request. *)
Inductive Delivery :=
| DProfile (enqueued : Result BatchResponse)
| DPhoto (adToken : Result string) (fetched : Result (Response string))
| DManager (adToken : Result string) (fetched : Result (Response GraphUser))
| DDirects (adToken : Result string) (fetched : Result (Response (list GraphUser))).

Definition operation (d : Delivery) : Op :=
  match d with
  | DProfile _ => Profile
  | DPhoto _ _ => Photo
  | DManager _ _ => Manager
  | DDirects _ _ => Directs
  end.

(** How the promise of the lookup ends: the result of the
    [...Internal] function on that delivery. *)
Definition outcome (d : Delivery) : PromiseState :=
  match d with
  | DProfile enqueued =>
      match resolveProfileInternal enqueued with
      | Ok profile => Fulfilled (VProfile profile)
      | Throw e => Rejected e
      end
  | DPhoto adToken fetched =>
      match getPhotoUrlInternal adToken fetched with
      | Ok url => Fulfilled (VPhoto url)
      | Throw e => Rejected e
      end
  | DManager adToken fetched =>
      match getManagerInternal adToken fetched with
      | Ok profile => Fulfilled (VProfile profile)
      | Throw e => Rejected e
      end
  | DDirects adToken fetched =>
      match getDirectsInternal adToken fetched with
      | Ok directs => Fulfilled (VDirects directs)
      | Throw e => Rejected e
      end
  end.

(** The settlement of promise [p].  Only a pending promise made by the
    operation the delivery belongs to is settled.  Its reactions become
    microtasks when it is fulfilled and are dropped when it is
    rejected. *)
Definition settle (p : nat) (d : Delivery) (s : State) : State :=
  match promises s !! p with
  | Some (mkPromise Pending rs (Some (op, key))) =>
      if decide (op = operation d) then
        let s1 := with_promises
                    (<[p := mkPromise (outcome d) [] (Some (op, key))]> (promises s)) s in
        match outcome d with
        | Fulfilled v => with_microtasks (microtasks s ++ ((λ r, (r, v)) <$> rs)) s1
        | _ => s1
        end
      else s
  | _ => s
  end.

(** The events that move the module: a caller looks a key up, the
    network completes a request, the engine runs the next microtask. *)
Inductive Event :=
| Call (op : Op) (emailOrId : string)
| Settle (p : nat) (d : Delivery)
| Microtask.

Definition step (e : Event) (s : State) : State :=
  match e with
  | Call op emailOrId => (call op emailOrId s).2
  | Settle p d => settle p d s
  | Microtask =>
      match microtasks s with
      | j :: rest => runJob j (with_microtasks rest s)
      | [] => s
      end
  end.

Definition run (evs : list Event) (s : State) : State :=
  foldl (λ s e, step e s) s evs.

Definition stateOf (p : nat) (s : State) : option PromiseState :=
  state <$> promises s !! p.

Definition madeBy (p : nat) (s : State) : option (Op * string) :=
  promises s !! p ≫= made_by.

(** Whether running job [j] assigns [cacheStorage[key]] in cache [c]. *)
Definition assigns (j : Job) (c : Op) (key : string) : bool :=
  match j with
  | (CacheValue _ cacheStorage, VProfile profile) =>
      bool_decide (cacheStorage = c) &&
      (bool_decide (id profile = key) ||
       (truthy (email profile) && bool_decide (email profile = Some key)))
  | _ => false
  end.

(** Whether event [e], taken in state [s], runs such a job. *)
Definition crossIndexes (e : Event) (s : State) (c : Op) (key : string) : bool :=
  match e, microtasks s with
  | Microtask, j :: _ => assigns j c key
  | _, _ => false
  end.

(** No event of [evs], run from [s], cross-indexes [key] in cache [c]. *)
Fixpoint undisturbed (c : Op) (key : string) (evs : list Event) (s : State) : bool :=
  match evs with
  | [] => true
  | e :: evs' => negb (crossIndexes e s c key) && undisturbed c key evs' (step e s)
  end.

(** *** Predicates on states, used to state what the module maintains *)

(** [grown P pr pr']: the promise [pr'] is [pr] with more reactions
    registered, all of which satisfy [P]. *)
Definition grown (P : Reaction → Prop) (pr pr' : Promise) : Prop :=
  state pr' = state pr ∧ made_by pr' = made_by pr ∧
  ∃ l, reactions pr' = reactions pr ++ l ∧ ∀ r, r ∈ l → P r.

(** The id of [profile], and its email when it has one, are keys of the
    profile cache. *)
Definition indexed (profile : IPersonaProfile) (s : State) : Prop :=
  is_Some (profilesCache s !! id profile) ∧
  ∀ mail, email profile = Some mail → truthy (Some mail) = true →
          is_Some (profilesCache s !! mail).

(** What holds of every state the module can be in:
    - a future in the profile cache sits under the key it was looked up
      by, or is fulfilled;
    - a queued callback for the profile cache stores a fulfilled future;
    - a registered callback for the profile cache stores the promise it
      is registered on;
    - a promise made by [resolveProfile] has its callback registered
      while it is pending; once it is fulfilled the callback is queued,
      or has run and left the profile indexed. *)
Record Inv (s : State) : Prop := mkInv {
  inv_entries : ∀ k f,
    profilesCache s !! k = Some f →
    ∃ pr, promises s !! f = Some pr ∧
          (made_by pr = Some (Profile, k) ∨ ∃ v, state pr = Fulfilled v);
  inv_jobs : ∀ value v,
    (CacheValue value Profile, v) ∈ microtasks s →
    ∃ pr w, promises s !! value = Some pr ∧ state pr = Fulfilled w;
  inv_reactions : ∀ d pr value,
    promises s !! d = Some pr → CacheValue value Profile ∈ reactions pr → value = d;
  inv_registered : ∀ p pr key,
    promises s !! p = Some pr → made_by pr = Some (Profile, key) →
    match state pr with
    | Pending => CacheValue p Profile ∈ reactions pr
    | Fulfilled (VProfile profile) =>
        (CacheValue p Profile, VProfile profile) ∈ microtasks s ∨ indexed profile s
    | _ => True
    end
}.

End Cache.

(* ===================================================================== *)
(** ** Concrete scenarios                                                 *)
(* ===================================================================== *)

(** Small directories and traces on which the module is run below. *)
Module Scenario.

Definition enabledUser : GraphUser :=
  mkGraphUser "u1" (Some "Ann") None (Some "ann@example.org") None None None
    (Some ["555-0100"]) None None JUndefined.
Definition disabledUser : GraphUser :=
  mkGraphUser "u2" (Some "Bob") None None None None None None None None (JBool false).
Definition nullFlagUser : GraphUser :=
  mkGraphUser "u3" (Some "Cy") None None None None None None (Some []) None JNull.

Definition person (key : string) : IPersonaProfile :=
  mkProfile key None None None None None None None None None.

(** A hierarchy three managers deep above "dev": the lookup for the
    manager of "ceo" is answered 404.  The world counts the calls. *)
Definition orgChart (key : string) (calls : nat)
  : Result IPersonaProfile * nat :=
  (if decide (key = "dev") then Ok (person "lead")
   else if decide (key = "lead") then Ok (person "vp")
   else if decide (key = "vp") then Ok (person "ceo")
   else Throw (buildErrorFromResponse (mkResponse 404 "Not Found" (Ok ()))),
   S calls).

(** Two people who are recorded as each other's manager. *)
Definition cyclicChart (key : string) (calls : nat)
  : Result IPersonaProfile * nat :=
  (if decide (key = "a") then Ok (person "b") else Ok (person "a"), S calls).

(** Three profile requests enqueued in one tick, and the entries that
    answer them. *)
Definition threeQueued : Batcher.State :=
  let tok := Ok "token" in
  let net := Throw (Error "offline") in
  let s1 := (Batcher.enqueueRequest "/users/u1" "GET" tok net Batcher.initial).1.2 in
  let s2 := (Batcher.enqueueRequest "/users/u2" "GET" tok net s1).1.2 in
  (Batcher.enqueueRequest "/users/u3" "GET" tok net s2).1.2.

Definition answer (n : N) (u : GraphUser) : BatchResponse :=
  mkBatchResponse (pretty n) 200 (Some (mkBatchBody NoMessage u)).

Definition threeAnswers : list BatchResponse :=
  [answer 1 enabledUser; answer 2 disabledUser; answer 3 nullFlagUser].

(** Ann is looked up by her address and then by her id before either
    request is answered; the first answer arrives alone. *)
Definition annByMail : Cache.Event := Cache.Call Cache.Profile "ann@example.org".
Definition annById : Cache.Event := Cache.Call Cache.Profile "u1".
Definition firstAnswered : list Cache.Event :=
  [Cache.Settle 0 (Cache.DProfile (Ok (answer 1 enabledUser))); Cache.Microtask].


(** Ann's profile, asked for by her address, has arrived and its
    callback has run. *)
Definition annResolved : list Cache.Event :=
  [annByMail; Cache.Settle 0 (Cache.DProfile (Ok (answer 1 enabledUser)));
   Cache.Microtask].

End Scenario.
Import Scenario.

(* ===================================================================== *)
(** ** The batcher over time                                              *)
(* ===================================================================== *)

Module BatcherRun.
Import Batcher.

(** What moves the batcher: a caller enqueues a request, or a timer set
    by [enqueueRequest] fires and runs [processBatch].  An event carries
    what the token provider and the network answer should it flush. *)
Inductive Event :=
| Enqueue (relativeUrl method : string) (adToken : Result string)
    (fetched : Result (Response (list BatchResponse)))
| TimerFires (adToken : Result string)
    (fetched : Result (Response (list BatchResponse))).

(** The module state, together with the flushes that took a snapshot of
    the queue so far, oldest first.  ([processBatch] on an empty queue
    returns before it takes one.) *)
Definition step (e : Event) (sl : State * list Flush) : State * list Flush :=
  match e with
  | Enqueue relativeUrl method adToken fetched =>
      match enqueueRequest relativeUrl method adToken fetched sl.1 with
      | (_, st', Some f) => (st', sl.2 ++ [f])
      | (_, st', None) => (st', sl.2)
      end
  | TimerFires adToken fetched =>
      if decide (size (queue sl.1) = 0%nat) then sl
      else let f := processBatch adToken fetched sl.1 in (after f, sl.2 ++ [f])
  end.

Definition run (evs : list Event) (sl : State * list Flush) : State * list Flush :=
  foldl (λ sl e, step e sl) sl evs.

(** The places a request can be in: the queue, or the snapshot of one of
    the flushes. *)
Definition places (sl : State * list Flush) : list (gmap string PendingRequest) :=
  queue sl.1 :: (snapshot <$> sl.2).

(** The places that hold a request under the property name [key]. *)
Definition holders (key : string) (sl : State * list Flush)
  : list (gmap string PendingRequest) :=
  filter (λ m, is_Some (m !! key)) (places sl).

(** Every property name in a place is the numeral of an id handed out
    so far, and every id handed out so far is held in exactly one
    place. *)
Definition conserved (sl : State * list Flush) : Prop :=
  (∀ m key, m ∈ places sl → is_Some (m !! key) →
            ∃ k : N, key = pretty k ∧ (0 < k ≤ lastRequestId sl.1)%N) ∧
  (∀ k : N, (0 < k ≤ lastRequestId sl.1)%N → length (holders (pretty k) sl) = 1%nat).

End BatcherRun.

(* ===================================================================== *)
(** ** The ascent over the directory                                      *)
(* ===================================================================== *)

Module ChainHttp.

(** What [await getManager(key)] yields when the manager of [key] is
    fetched: the result of [getManagerInternal] on the answer of the
    directory for that key.  The world counts the requests. *)
Definition getManager (adToken : Result string)
    (directory : string → Result (Response GraphUser))
    (key : string) (requests : nat) : Result IPersonaProfile * nat :=
  (getManagerInternal adToken (directory key), S requests).

End ChainHttp.

(* ===================================================================== *)
(** ** What the lookups leave in the profile cache                        *)
(* ===================================================================== *)

Module CacheSeeding.
Import Cache.

(** A callback that files a future under the keys of [profile] is
    queued, or the keys are in the profile cache. *)
Definition awaited (profile : IPersonaProfile) (s : State) : Prop :=
  (∃ b, (CacheValue b Profile, VProfile profile) ∈ microtasks s) ∨ indexed profile s.

(** What holds of the promises of [getManager] and [getDirects] in every
    state: while pending they carry the callback that seeds the profile
    cache; once fulfilled, the seeding is queued or done. *)
Record Seeds (s : State) : Prop := mkSeeds {
  seeds_manager : ∀ p pr key,
    promises s !! p = Some pr → made_by pr = Some (Manager, key) →
    match state pr with
    | Pending => CacheValue p Profile ∈ reactions pr
    | Fulfilled (VProfile profile) => awaited profile s
    | _ => True
    end;
  seeds_directs : ∀ p pr key,
    promises s !! p = Some pr → made_by pr = Some (Directs, key) →
    match state pr with
    | Pending => CacheDirects ∈ reactions pr
    | Fulfilled (VDirects directs) =>
        (CacheDirects, VDirects directs) ∈ microtasks s ∨
        ∀ direct, direct ∈ directs → awaited direct s
    | _ => True
    end
}.



End CacheSeeding.

(* ===================================================================== *)
(** ** More scenarios                                                     *)
(* ===================================================================== *)

Module Scenario2.

(** The directory answers for the hierarchy of [orgChart]; asking for the
    manager of "ceo" is answered with the given status. *)
Definition orgDirectory (top : Z) (text : string) (key : string)
  : Result (Response GraphUser) :=
  let user (name : string) :=
    mkGraphUser name None None None None None None None None None JUndefined in
  if decide (key = "dev") then Ok (mkResponse 200 "OK" (Ok (user "lead")))
  else if decide (key = "lead") then Ok (mkResponse 200 "OK" (Ok (user "vp")))
  else if decide (key = "vp") then Ok (mkResponse 200 "OK" (Ok (user "ceo")))
  else Ok (mkResponse top text (Ok (user "nobody"))).

(** A chain without end: the manager of "n" is "n" followed by a mark. *)
Definition endlessChart (key : string) (calls : nat) : Result IPersonaProfile * nat :=
  (Ok (person (key +:+ "'")), S calls).

Definition offline : Result (Response (list BatchResponse)) := Throw (Error "offline").

(** Twenty-one requests enqueued back to back, then the timer. *)
Definition twentyOneThenTimer : list BatcherRun.Event :=
  replicate 21 (BatcherRun.Enqueue "/users/x" "GET" (Ok "token") offline)
  ++ [BatcherRun.TimerFires (Ok "token") offline].

(** The second entry for request "1" differs from the first. *)
Definition twoAnswersForOne : list BatchResponse :=
  [answer 1 enabledUser; answer 2 disabledUser; answer 1 nullFlagUser].

(** The middle entry names a request that is not in the snapshot. *)
Definition strayAnswer : list BatchResponse :=
  [answer 1 enabledUser; answer 7 disabledUser; answer 2 disabledUser].

(** Ann's manager is asked for and is Bob, who has no email. *)
Definition managerArrives : list Cache.Event :=
  [Cache.Call Cache.Manager "u1";
   Cache.Settle 0 (Cache.DManager (Ok "token") (Ok (mkResponse 200 "OK" (Ok disabledUser))));
   Cache.Microtask].

(** The direct reports of "boss" are asked for and arrive; three
    microtasks run the callback of [getDirects] and the two it queues. *)
Definition directsArrive : list Cache.Event :=
  [Cache.Call Cache.Directs "boss";
   Cache.Settle 0 (Cache.DDirects (Ok "token")
                     (Ok (mkResponse 200 "OK"
                            (Ok [enabledUser; disabledUser; nullFlagUser]))));
   Cache.Microtask; Cache.Microtask; Cache.Microtask].

(** Ann's photo is asked for by her address before anything is known of
    her; her profile is resolved afterwards. *)
Definition photoBeforeProfile : list Cache.Event :=
  [Cache.Call Cache.Photo "ann@example.org";
   annByMail;
   Cache.Settle 1 (Cache.DProfile (Ok (answer 1 enabledUser)));
   Cache.Microtask].

(** The lookup of "ghost" is answered 404 and asked again. *)
Definition ghostFails : list Cache.Event :=
  [Cache.Call Cache.Profile "ghost";
   Cache.Settle 0 (Cache.DProfile
                     (Ok (mkBatchResponse "1" 404
                            (Some (mkBatchBody (Text "Not found") enabledUser)))))].

End Scenario2.
Import Scenario2.

(* ===================================================================== *)
(** ** Error classification and the direct-reports filter                 *)
(* ===================================================================== *)

Section FetcherFacts.

Lemma status_404_not_ok {A} (text : string) (body : Result A) :
  ok (mkResponse 404 text body) = false.
Proof. reflexivity. Qed.

Lemma buildErrorFromResponse_404 {A} (text : string) (body : Result A) :
  name (buildErrorFromResponse (mkResponse 404 text body)) = "NotFound".
Proof. reflexivity. Qed.

(** C1.  A 404 answer makes [getManager], [getPhotoUrl] and
    [getDirects] fail with an error named "NotFound", whereas
    [resolveProfile], whose answer is an entry of the batch response,
    fails with a plain [Error] carrying the service's message or the
    status: its name is "Error", not "NotFound". *)
Theorem not_found_classification :
  (∀ tok text body,
      ∃ e, getManagerInternal (Ok tok) (Ok (mkResponse 404 text body)) = Throw e
           ∧ name e = "NotFound") ∧
  (∀ tok text body,
      ∃ e, getPhotoUrlInternal (Ok tok) (Ok (mkResponse 404 text body)) = Throw e
           ∧ name e = "NotFound") ∧
  (∀ tok text body,
      ∃ e, getDirectsInternal (Ok tok) (Ok (mkResponse 404 text body)) = Throw e
           ∧ name e = "NotFound") ∧
  (∀ rid body,
      ∃ e, resolveProfileInternal (Ok (mkBatchResponse rid 404 body)) = Throw e
           ∧ name e = "Error" ∧ name e ≠ "NotFound"
           ∧ Cache.outcome (Cache.DProfile (Ok (mkBatchResponse rid 404 body)))
             = Cache.Rejected e).
Proof.
  repeat split; intros.
  - eexists. split; [reflexivity|]. apply buildErrorFromResponse_404.
  - eexists. split; [reflexivity|]. apply buildErrorFromResponse_404.
  - eexists. split; [reflexivity|]. apply buildErrorFromResponse_404.
  - exists (Error (message_or_status (mkBatchResponse rid 404 body))).
    repeat split; done.
Qed.

Lemma strict_ne_false_spec (v : JsValue) :
  strict_ne_false v = true ↔ v ≠ JBool false.
Proof. destruct v as [| |[]| |]; simpl; split; congruence. Qed.

Lemma filter_enabled (value : list GraphUser) :
  filter (λ p : GraphUser, strict_ne_false (g_accountEnabled p) = true) value
  = filter (λ p : GraphUser, g_accountEnabled p ≠ JBool false) value.
Proof.
  induction value as [|p value IH]; [done|].
  rewrite !filter_cons, IH.
  destruct (decide (strict_ne_false (g_accountEnabled p) = true)) as [H|H],
           (decide (g_accountEnabled p ≠ JBool false)) as [H'|H'];
    try done; rewrite strict_ne_false_spec in H; contradiction.
Qed.

(** C10.  On a successful answer [getDirects] resolves to the profiles
    of exactly the entries whose [accountEnabled] is not the boolean
    [false], in their order; entries where the field is missing or
    [null] are kept. *)
Theorem getDirects_keeps_all_but_disabled
    (tok : string) (response : Response (list GraphUser)) (value : list GraphUser) :
  ok response = true →
  decoded response = Ok value →
  let kept := filter (λ p : GraphUser, g_accountEnabled p ≠ JBool false) value in
  getDirectsInternal (Ok tok) (Ok response) = Ok (buildProfile <$> kept)
  ∧ Cache.outcome (Cache.DDirects (Ok tok) (Ok response))
    = Cache.Fulfilled (Cache.VDirects (buildProfile <$> kept))
  ∧ (∀ p, p ∈ kept ↔ p ∈ value ∧ g_accountEnabled p ≠ JBool false)
  ∧ (∀ p, p ∈ value →
          g_accountEnabled p = JUndefined ∨ g_accountEnabled p = JNull →
          p ∈ kept).
Proof.
  intros Hok Hdec kept.
  assert (getDirectsInternal (Ok tok) (Ok response) = Ok (buildProfile <$> kept)) as E.
  { unfold getDirectsInternal; simpl. rewrite Hok, Hdec; simpl.
    by rewrite filter_enabled. }
  split; [exact E|]. split.
  { unfold Cache.outcome. by rewrite E. }
  split.
  - intros p. unfold kept. rewrite list_elem_of_filter. tauto.
  - intros p Hin Hp. unfold kept. rewrite list_elem_of_filter.
    split; [|done]. destruct Hp as [-> | ->]; discriminate.
Qed.

Lemma getDirects_keeps_all_but_disabled_witness :
  getDirectsInternal (Ok "token")
    (Ok (mkResponse 200 "OK" (Ok [enabledUser; disabledUser; nullFlagUser])))
  = Ok [buildProfile enabledUser; buildProfile nullFlagUser].
Proof.
  exact (proj1 (getDirects_keeps_all_but_disabled "token"
                  (mkResponse 200 "OK" (Ok [enabledUser; disabledUser; nullFlagUser]))
                  [enabledUser; disabledUser; nullFlagUser] eq_refl eq_refl)).
Defined.

End FetcherFacts.

(* ===================================================================== *)
(** ** Chain traversal                                                    *)
(* ===================================================================== *)

Section ChainFacts.

Import Chain.
Context {World : Type}.
Variable getManager : string → World → Result IPersonaProfile * World.

(** The loop follows an ascent step by step while there is fuel. *)
Lemma loop_ascent key w ms key' w' :
  ascent getManager key w ms key' w' →
  ∀ fuel res keys,
  ∃ keys', length keys' = (length keys + length ms)%nat ∧
    loop getManager (length ms + fuel) key res keys w
    = loop getManager fuel key' (res ++ ms) keys' w'.
Proof.
  induction 1 as [key w | key w manager w' ms key'' w'' Hget _ IH];
    intros fuel res keys.
  - exists keys. split; [simpl; lia|]. by rewrite app_nil_r.
  - destruct (IH fuel (res ++ [manager]) (keys ++ [key])) as (keys' & Hlen & E).
    exists keys'. split.
    + rewrite Hlen, length_app. simpl. lia.
    + simpl. rewrite Hget, E. by rewrite <- app_assoc.
Qed.

Lemma loop_bounds fuel :
  ∀ key res keys w res' oe keys' w',
  loop getManager fuel key res keys w = (res', oe, keys', w') →
  (length keys' ≤ length keys + fuel)%nat ∧
  (length res ≤ length res')%nat ∧
  (length res' + length keys ≤ length keys' + length res)%nat.
Proof.
  induction fuel as [|fuel IH]; intros key res keys w res' oe keys' w' E; simpl in E.
  - inversion E; subst. lia.
  - destruct (getManager key w) as [[manager|e] w1].
    + apply IH in E. rewrite !length_app in E. simpl in E. lia.
    + inversion E; subst. rewrite length_app. simpl. lia.
Qed.

(** C8.  When the resolver has answered the managers [ms] (fewer than
    the maximum depth) and the next lookup fails, [getAllManagers]
    returns exactly [ms] if the failure is named "NotFound" and throws
    that very failure otherwise; with three managers and a "NotFound"
    on the fourth lookup the result has exactly three profiles. *)
Theorem getAllManagers_stops_at_NotFound key w ms key' w' e w'' :
  ascent getManager key w ms key' w' →
  (length ms < maxDepth)%nat →
  getManager key' w' = (Throw e, w'') →
  returned (getAllManagers getManager key w)
  = (if decide (name e = "NotFound") then Ok ms else Throw e)
  ∧ length (lookups (getAllManagers getManager key w)) = S (length ms)
  ∧ (length ms = 3%nat → name e = "NotFound" →
     ∃ m1 m2 m3, returned (getAllManagers getManager key w) = Ok [m1; m2; m3]).
Proof.
  intros Hasc Hlen Hfail.
  assert (∃ keys', length keys' = S (length ms) ∧
            loop getManager maxDepth key [] [] w = (ms, Some e, keys', w''))
    as (keys' & Hk & E).
  { destruct (loop_ascent _ _ _ _ _ Hasc (maxDepth - length ms) [] [])
      as (keys1 & Hlen1 & E1).
    replace (length ms + (maxDepth - length ms))%nat with maxDepth in E1 by lia.
    destruct (maxDepth - length ms)%nat as [|fuel] eqn:Hfuel; [lia|].
    simpl in E1. rewrite Hfail in E1. simpl in Hlen1.
    exists (keys1 ++ [key']). split; [rewrite length_app; simpl; lia | exact E1]. }
  assert (returned (getAllManagers getManager key w)
          = (if decide (name e = "NotFound") then Ok ms else Throw e)) as R.
  { unfold getAllManagers. rewrite E.
    destruct (decide (name e ≠ "NotFound")) as [Hne|Heq];
      destruct (decide (name e = "NotFound")); simpl; congruence || tauto. }
  split; [exact R|]. split.
  - unfold getAllManagers. rewrite E.
    by destruct (decide (name e ≠ "NotFound")).
  - intros H3 Hnf. rewrite R. rewrite decide_True by done.
    destruct ms as [|m1 [|m2 [|m3 [|m4 ms]]]]; try discriminate. by eexists _, _, _.
Qed.

(** C9.  Whatever the resolver answers, [getAllManagers] returns after
    at most 15 calls of it, and a returned sequence has at most 15
    profiles (one per successful call). *)
Theorem getAllManagers_bounded key w :
  (length (lookups (getAllManagers getManager key w)) ≤ 15)%nat ∧
  match returned (getAllManagers getManager key w) with
  | Ok ms => (length ms ≤ 15)%nat
             ∧ (length ms ≤ length (lookups (getAllManagers getManager key w)))%nat
  | Throw _ => True
  end.
Proof.
  unfold getAllManagers.
  destruct (loop getManager maxDepth key [] [] w) as [[[res oe] keys] w'] eqn:E.
  apply loop_bounds in E. simpl in E. change maxDepth with 15%nat in E.
  destruct oe as [e|]; [destruct (decide (name e ≠ "NotFound"))|]; simpl; lia.
Qed.

End ChainFacts.

Lemma getAllManagers_stops_at_NotFound_witness :
  Chain.returned (Chain.getAllManagers orgChart "dev" 0%nat)
  = Ok [person "lead"; person "vp"; person "ceo"].
Proof.
  refine (proj1 (getAllManagers_stops_at_NotFound orgChart "dev" 0%nat
                   [person "lead"; person "vp"; person "ceo"] "ceo" 3%nat
                   (buildErrorFromResponse (mkResponse 404 "Not Found" (Ok ()))) 4%nat
                   _ _ _)).
  - repeat (eapply Chain.ascent_cons; [reflexivity|]). apply Chain.ascent_nil.
  - vm_compute. lia.
  - reflexivity.
Defined.

(* ===================================================================== *)
(** ** The batcher: settlement of the pending requests                    *)
(* ===================================================================== *)

Section BatcherFacts.

Import Batcher.
Implicit Types (pq : gmap string PendingRequest) (rs : list BatchResponse).

Lemma calls_resolved req l :
  calls (foldl onResolve req l) = calls req ++ (Ok <$> l).
Proof.
  revert req. induction l as [|res l IH]; intros req; simpl.
  - by rewrite app_nil_r.
  - rewrite IH. simpl. by rewrite <- app_assoc.
Qed.

Lemma answered_cons_eq res rs :
  answered (res_id res) (res :: rs) = res :: answered (res_id res) rs.
Proof. unfold answered. by rewrite filter_cons_True. Qed.

Lemma answered_cons_ne i res rs :
  res_id res ≠ i → answered i (res :: rs) = answered i rs.
Proof. intros. unfold answered. by rewrite filter_cons_False. Qed.

Lemma elem_of_answered i res rs :
  res ∈ answered i rs ↔ res_id res = i ∧ res ∈ rs.
Proof. unfold answered. by rewrite list_elem_of_filter. Qed.

(** What the loop has done to the entry [i] when it ends, normally or
    by the exception: it has resolved it with some of the entries that
    carry [i], all of them when the loop ran to its end. *)
Lemma dispatch_lookup rs :
  ∀ pq r pq', dispatch rs pq = (r, pq') →
  ∀ i, ∃ l,
    (∀ res, res ∈ l → res ∈ answered i rs) ∧
    (r = Ok () → l = answered i rs) ∧
    pq' !! i = (λ req, foldl onResolve req l) <$> pq !! i.
Proof.
  induction rs as [|res rs IH]; intros pq r pq' E i; simpl in E.
  - inversion E; subst. exists []. repeat split; try done.
    by destruct (pq' !! i).
  - destruct (pq !! res_id res) as [req|] eqn:Hreq.
    + destruct (IH _ _ _ E i) as (l & Hl & Hall & Hlook).
      destruct (decide (res_id res = i)) as [<-|Hne].
      * exists (res :: l). rewrite answered_cons_eq. repeat split.
        -- intros x [->|Hx]%elem_of_cons; [left | right; auto].
        -- intros Hr. by rewrite (Hall Hr).
        -- rewrite Hlook, lookup_insert_eq, Hreq. done.
      * exists l. rewrite (answered_cons_ne _ _ _ Hne). repeat split; try done.
        by rewrite Hlook, lookup_insert_ne.
    + inversion E; subst. exists []. repeat split; try done.
      * intros x Hx. by apply elem_of_nil in Hx.
      * by destruct (pq' !! i).
Qed.

(** The loop runs to its end exactly when every entry names a request
    of the snapshot. *)
Lemma dispatch_ok_iff rs :
  ∀ pq, (∃ pq', dispatch rs pq = (Ok (), pq')) ↔
        (∀ res, res ∈ rs → is_Some (pq !! res_id res)).
Proof.
  induction rs as [|res rs IH]; intros pq; simpl.
  - split; [intros _ res Hres; by apply elem_of_nil in Hres | eauto].
  - destruct (pq !! res_id res) as [req|] eqn:Hreq.
    + rewrite IH. split.
      * intros H x [->|Hx]%elem_of_cons; [by rewrite Hreq|].
        specialize (H x Hx). destruct (decide (res_id res = res_id x)) as [Heq|Hne].
        -- rewrite <- Heq, Hreq. eauto.
        -- by rewrite lookup_insert_ne in H.
      * intros H x Hx. destruct (decide (res_id res = res_id x)) as [Heq|Hne].
        -- rewrite <- Heq, lookup_insert_eq. eauto.
        -- rewrite lookup_insert_ne by done. apply H. by right.
    + split.
      * intros [pq' E]. discriminate.
      * intros H. specialize (H res (list_elem_of_here _ _)).
        rewrite Hreq in H. by destruct H.
Qed.

Lemma answered_nil_iff i rs : answered i rs = [] ↔ i ∉ res_id <$> rs.
Proof.
  split.
  - intros E (res & -> & Hres)%list_elem_of_fmap.
    assert (res ∈ answered (res_id res) rs) as H by by apply elem_of_answered.
    rewrite E in H. by apply elem_of_nil in H.
  - intros Hni. destruct (answered i rs) as [|res l] eqn:E; [done|].
    assert (res ∈ answered i rs) as [<- Hres]%elem_of_answered
      by (rewrite E; left).
    destruct Hni. apply list_elem_of_fmap. eauto.
Qed.

Lemma settled_rejected req e :
  settled (onReject req e) = Some (default (Throw e) (settled req)).
Proof. unfold settled, onReject; simpl. by destruct (calls req). Qed.

Lemma processBatch_snapshot tok fetched st :
  queue st ≠ ∅ →
  snapshot (processBatch (Ok tok) fetched st) =
  match fetched with
  | Throw e => rejectAll e (queue st)
  | Ok response =>
      match processResponse response (queue st) with
      | (Ok _, pq) => pq
      | (Throw e, pq) => rejectAll e pq
      end
  end.
Proof.
  intros Hne. unfold processBatch.
  destruct (decide (size (queue st) = 0%nat)) as [H0|_].
  { by apply map_size_empty_iff in H0. }
  destruct fetched as [response|e]; [|done].
  by destruct (processResponse response (queue st)) as [[[]|e] pq].
Qed.

(** C6, as the code has it.  Once the token is there, a request of the
    flushed snapshot (whose promise no one has touched yet) ends as
    follows.  If [fetch] itself fails, it is rejected with that failure,
    and so is every other request of the snapshot; if the status is not
    ok, all are rejected with the error built from the response.  It is
    resolved only with an entry that carries its id.  It stays pending
    exactly when the response was processed to its end and holds no
    entry with its id; in every other case it is settled, once, by the
    first call made on it. *)
Theorem processBatch_settlement tok fetched st i req :
  queue st !! i = Some req →
  calls req = [] →
  ∃ req', snapshot (processBatch (Ok tok) fetched st) !! i = Some req' ∧
    (∀ e, fetched = Throw e → settled req' = Some (Throw e)) ∧
    (∀ response, fetched = Ok response → ok response = false →
       settled req' = Some (Throw (buildErrorFromResponse response))) ∧
    (∀ res, settled req' = Some (Ok res) →
       res_id res = i ∧
       ∃ response rs, fetched = Ok response ∧ decoded response = Ok rs ∧ res ∈ rs) ∧
    (settled req' = None ↔
       ∃ response rs, fetched = Ok response ∧ ok response = true ∧
         decoded response = Ok rs ∧
         (∀ res, res ∈ rs → is_Some (queue st !! res_id res)) ∧
         i ∉ res_id <$> rs).
Proof.
  intros Hreq Hcalls.
  assert (queue st ≠ ∅) as Hne by (intros E; by rewrite E, lookup_empty in Hreq).
  rewrite (processBatch_snapshot _ _ _ Hne).
  assert (∀ e, settled (onReject req e) = Some (Throw e)) as Hrej.
  { intros e. rewrite settled_rejected. unfold settled. by rewrite Hcalls. }
  destruct fetched as [response|e].
  2:{ exists (onReject req e). unfold rejectAll. rewrite lookup_fmap, Hreq. simpl.
      split; [done|]. rewrite Hrej.
      split; [by intros e' [= ->]|]. split; [done|]. split; [done|].
      split; [done|]. intros (? & ? & ? & _). done. }
  unfold processResponse. destruct (ok response) eqn:Hok.
  2:{ exists (onReject req (buildErrorFromResponse response)).
      unfold rejectAll. rewrite lookup_fmap, Hreq. simpl.
      split; [done|]. rewrite Hrej.
      split; [done|]. split; [by intros ? [= <-]|]. split; [done|].
      split; [done|]. intros (? & ? & [= <-] & ? & _). congruence. }
  destruct (decoded response) as [rs|e] eqn:Hdec.
  2:{ exists (onReject req e). unfold rejectAll. rewrite lookup_fmap, Hreq. simpl.
      split; [done|]. rewrite Hrej.
      split; [done|]. split; [intros ? [= <-]; congruence|]. split; [done|].
      split; [done|]. intros (? & ? & [= <-] & _ & ? & _). congruence. }
  destruct (dispatch rs (queue st)) as [r pq'] eqn:E.
  destruct (dispatch_lookup _ _ _ _ E i) as (l & Hl & Hall & Hlook).
  rewrite Hreq in Hlook. simpl in Hlook.
  assert (calls (foldl onResolve req l) = Ok <$> l) as Hc
    by (by rewrite calls_resolved, Hcalls).
  destruct r as [[]|e].
  - (* the loop ran to its end *)
    exists (foldl onResolve req l). split; [done|].
    specialize (Hall eq_refl). subst l.
    unfold settled. rewrite Hc.
    split; [done|]. split; [by intros ? [= <-]; congruence|]. split.
    + intros res Hres. destruct (answered i rs) as [|res0 l] eqn:Ha; [done|].
      simpl in Hres. injection Hres as ->.
      assert (res ∈ answered i rs) as [? ?]%elem_of_answered by (rewrite Ha; left).
      split; [done|]. by exists response, rs.
    + split.
      * intros Hnone. exists response, rs. repeat split; try done.
        -- apply dispatch_ok_iff. eauto.
        -- apply answered_nil_iff. by destruct (answered i rs).
      * intros (? & rs' & [= <-] & _ & Hd & _ & Hni).
        rewrite Hdec in Hd. injection Hd as <-.
        apply answered_nil_iff in Hni. by rewrite Hni.
  - (* an entry named no request: the rest is rejected *)
    exists (onReject (foldl onResolve req l) e).
    unfold rejectAll. rewrite lookup_fmap, Hlook. simpl. split; [done|].
    rewrite settled_rejected. unfold settled at 1 2 3. rewrite Hc.
    split; [done|]. split; [by intros ? [= <-]; congruence|]. split.
    + intros res Hres. destruct l as [|res0 l]; simpl in Hres; [done|].
      injection Hres as ->.
      assert (res ∈ answered i rs) as [? ?]%elem_of_answered by (apply Hl; left).
      split; [done|]. by exists response, rs.
    + split; [by destruct l|].
      intros (? & rs' & [= <-] & _ & Hd & Hin & _).
      rewrite Hdec in Hd. injection Hd as <-.
      apply dispatch_ok_iff in Hin as [pq'' E']. congruence.
Qed.

Lemma processBatch_settlement_witness :
  ∃ req', snapshot (processBatch (Ok "token") (Throw (Error "offline")) threeQueued)
            !! "2" = Some req'
          ∧ settled req' = Some (Throw (Error "offline")).
Proof.
  destruct (processBatch_settlement "token" (Throw (Error "offline")) threeQueued
              "2" (mkPending "2" "/users/u2" "GET" []) eq_refl eq_refl)
    as (req' & Hlook & Hfail & _).
  exists req'. split; [exact Hlook | exact (Hfail _ eq_refl)].
Defined.

(** C6 as stated fails: a batch answered with status 200 whose
    collection has no entry for request "2" leaves the promise of that
    request pending for ever. *)
Lemma processBatch_not_always_settled :
  ¬ (∀ tok fetched st i req,
       queue st !! i = Some req → calls req = [] →
       ∃ req', snapshot (processBatch (Ok tok) fetched st) !! i = Some req'
               ∧ is_Some (settled req')).
Proof.
  intros H.
  destruct (H "token"
              (Ok (mkResponse 200 "OK" (Ok [answer 1 enabledUser; answer 3 nullFlagUser])))
              threeQueued "2" (mkPending "2" "/users/u2" "GET" []) eq_refl eq_refl)
    as (req' & Hlook & Hset).
  vm_compute in Hlook. injection Hlook as <-.
  vm_compute in Hset. by destruct Hset.
Qed.

Lemma answered_unique rs res :
  NoDup (res_id <$> rs) → res ∈ rs → answered (res_id res) rs = [res].
Proof.
  induction rs as [|x rs IH]; intros Hnd Hin; [by apply elem_of_nil in Hin|].
  rewrite fmap_cons in Hnd. apply NoDup_cons in Hnd as [Hx Hnd].
  apply elem_of_cons in Hin as [->|Hin].
  - rewrite answered_cons_eq. f_equal. by apply answered_nil_iff.
  - rewrite answered_cons_ne; [by apply IH|].
    intros E. apply Hx. rewrite E. apply list_elem_of_fmap. eauto.
Qed.

Lemma answered_permutation i rs rs' :
  NoDup (res_id <$> rs) → rs' ≡ₚ rs → answered i rs' = answered i rs.
Proof.
  intros Hnd Hperm.
  assert (NoDup (res_id <$> rs')) as Hnd' by by rewrite Hperm.
  destruct (decide (i ∈ res_id <$> rs)) as [(res & -> & Hres)%list_elem_of_fmap|Hni].
  - rewrite (answered_unique rs res Hnd Hres).
    apply answered_unique; [done | by rewrite Hperm].
  - rewrite (proj2 (answered_nil_iff i rs) Hni).
    apply answered_nil_iff. by rewrite Hperm.
Qed.

(** C7, as the code has it.  When the entries of a successful batch
    response carry pairwise distinct ids, each the id of a request of the snapshot,
    every entry is handed to the request with its id: whatever the order
    in which the entries arrive (reversed, or permuted in any way), the
    snapshot ends up the same and every answered request is resolved
    with its own entry. *)
Theorem processResponse_dispatch_by_id pq rs rs' (code : Z) (text : string) :
  NoDup (res_id <$> rs) →
  (∀ res, res ∈ rs → is_Some (pq !! res_id res)) →
  rs' ≡ₚ rs →
  ok (mkResponse code text (Ok rs)) = true →
  ∃ pq',
    processResponse (mkResponse code text (Ok rs)) pq = (Ok (), pq') ∧
    processResponse (mkResponse code text (Ok rs')) pq = (Ok (), pq') ∧
    processResponse (mkResponse code text (Ok (reverse rs))) pq = (Ok (), pq') ∧
    (∀ res req, res ∈ rs → pq !! res_id res = Some req →
       pq' !! res_id res = Some (onResolve req res) ∧
       (calls req = [] → settled (onResolve req res) = Some (Ok res))) ∧
    (∀ i, i ∉ res_id <$> rs → pq' !! i = pq !! i).
Proof.
  intros Hnd Hin Hperm Hok.
  assert (∀ l, l ≡ₚ rs → ∃ pq', dispatch l pq = (Ok (), pq') ∧
            ∀ i, pq' !! i = (λ req, foldl onResolve req (answered i rs)) <$> pq !! i)
    as Hany.
  { intros l Hl.
    destruct (proj2 (dispatch_ok_iff l pq)) as [pq' E].
    { intros res Hres. apply Hin. by rewrite <- Hl. }
    exists pq'. split; [done|]. intros i.
    destruct (dispatch_lookup _ _ _ _ E i) as (l' & _ & Hall & Hlook).
    by rewrite Hlook, (Hall eq_refl), (answered_permutation i rs l Hnd Hl). }
  destruct (Hany rs (reflexivity _)) as (pq0 & E0 & H0).
  destruct (Hany rs' Hperm) as (pq1 & E1 & H1).
  destruct (Hany (reverse rs) (reverse_Permutation rs)) as (pq2 & E2 & H2).
  assert (pq1 = pq0) as -> by (apply map_eq; intros i; by rewrite H0, H1).
  assert (pq2 = pq0) as -> by (apply map_eq; intros i; by rewrite H0, H2).
  exists pq0. unfold processResponse, ok in *. simpl in *. rewrite !Hok.
  split; [done|]. split; [done|]. split; [done|]. split.
  - intros res req Hres Hreq. split.
    + by rewrite H0, Hreq, (answered_unique rs res Hnd Hres).
    + intros Hc. unfold settled, onResolve. simpl. by rewrite Hc.
  - intros i Hni. rewrite H0, (proj2 (answered_nil_iff i rs) Hni).
    by destruct (pq !! i).
Qed.

Lemma processResponse_dispatch_by_id_witness :
  ∃ pq',
    processResponse (mkResponse 200 "OK" (Ok threeAnswers)) (queue threeQueued)
    = (Ok (), pq') ∧
    processResponse (mkResponse 200 "OK" (Ok (reverse threeAnswers))) (queue threeQueued)
    = (Ok (), pq') ∧
    settled <$> pq' !! "2" = Some (Some (Ok (answer 2 disabledUser))).
Proof.
  destruct (processResponse_dispatch_by_id (queue threeQueued) threeAnswers
              (reverse threeAnswers) 200 "OK")
    as (pq' & E & _ & Erev & Hres & _).
  - apply (bool_decide_unpack _). by vm_compute.
  - intros res Hres. unfold threeAnswers in Hres.
    apply elem_of_cons in Hres as [->|Hres]; [by eexists|].
    apply elem_of_cons in Hres as [->|Hres]; [by eexists|].
    apply list_elem_of_singleton in Hres as ->. by eexists.
  - apply reverse_Permutation.
  - reflexivity.
  - exists pq'. split; [exact E|]. split; [exact Erev|].
    destruct (Hres (answer 2 disabledUser) (mkPending "2" "/users/u2" "GET" []))
      as [Hlook Hset].
    + unfold threeAnswers. right. left.
    + reflexivity.
    + change (res_id (answer 2 disabledUser)) with "2" in Hlook.
      rewrite Hlook. simpl. by rewrite (Hset eq_refl).
Defined.

(** C7 as stated fails for a collection in which two entries carry the
    same id: the promise of the request keeps the first of them, so the
    caller of request "1" receives Ann's record when the entries arrive
    in one order and another person's when they arrive reversed. *)
Lemma processResponse_order_matters :
  ¬ (∀ pq rs rs' i req,
       pq !! i = Some req → calls req = [] → rs' ≡ₚ rs →
       settled <$> (processResponse (mkResponse 200 "OK" (Ok rs')) pq).2 !! i
       = settled <$> (processResponse (mkResponse 200 "OK" (Ok rs)) pq).2 !! i).
Proof.
  intros H.
  specialize (H (queue threeQueued) twoAnswersForOne (reverse twoAnswersForOne)
                "1" (mkPending "1" "/users/u1" "GET" []) eq_refl eq_refl
                (reverse_Permutation _)).
  vm_compute in H. discriminate H.
Qed.

End BatcherFacts.

(* ===================================================================== *)
(** ** The caches: what each primitive touches                            *)
(* ===================================================================== *)

Section CacheFrame.

Import Cache.
Implicit Types (s : State) (c op : Op) (key : string) (p value : nat).

Lemma cache_store c c' key key' value s :
  cache c (store c' key' value s) !! key
  = if decide (c' = c ∧ key' = key) then Some value else cache c s !! key.
Proof.
  destruct (decide (c' = c)) as [->|Hc].
  - destruct (decide (key' = key)) as [->|Hk].
    + rewrite decide_True by done. destruct c; apply lookup_insert_eq.
    + rewrite decide_False by tauto. destruct c; simpl; by rewrite lookup_insert_ne.
  - rewrite decide_False by tauto. by destruct c, c'.
Qed.

Lemma promises_store c key value s : promises (store c key value s) = promises s.
Proof. by destruct c. Qed.
Lemma microtasks_store c key value s : microtasks (store c key value s) = microtasks s.
Proof. by destruct c. Qed.
Lemma fetches_store c key value s : fetches (store c key value s) = fetches s.
Proof. by destruct c. Qed.

Lemma cache_with_promises c ps s : cache c (with_promises ps s) = cache c s.
Proof. by destruct c. Qed.
Lemma cache_with_microtasks c js s : cache c (with_microtasks js s) = cache c s.
Proof. by destruct c. Qed.
Lemma cache_with_fetches c fs s : cache c (with_fetches fs s) = cache c s.
Proof. by destruct c. Qed.

(** The three things [then] can do. *)
Lemma then_cases p r s :
  (∃ pr, promises s !! p = Some pr ∧ state pr = Pending ∧
     then_ p r s
     = with_promises
         (<[p := mkPromise Pending (reactions pr ++ [r]) (made_by pr)]> (promises s)) s)
  ∨ (∃ pr v, promises s !! p = Some pr ∧ state pr = Fulfilled v ∧
       then_ p r s = with_microtasks (microtasks s ++ [(r, v)]) s)
  ∨ then_ p r s = s.
Proof.
  unfold then_. destruct (promises s !! p) as [pr|] eqn:Hp; [|by right; right].
  destruct (state pr) as [|v|e] eqn:Hst.
  - left. by exists pr.
  - right; left. by exists pr, v.
  - by right; right.
Qed.

Lemma cache_then c p r s : cache c (then_ p r s) = cache c s.
Proof.
  destruct (then_cases p r s) as [(pr & _ & _ & ->)|[(pr & v & _ & _ & ->)| ->]];
    [apply cache_with_promises | apply cache_with_microtasks | done].
Qed.

Lemma fetches_then p r s : fetches (then_ p r s) = fetches s.
Proof.
  by destruct (then_cases p r s) as [(pr & _ & _ & ->)|[(pr & v & _ & _ & ->)| ->]].
Qed.

Lemma cache_cacheByIdOrEmail c o value c' s :
  cache c (cacheByIdOrEmail o value c' s) = cache c s.
Proof. destruct o; [apply cache_then | done]. Qed.

Lemma fetches_cacheByIdOrEmail o value c' s :
  fetches (cacheByIdOrEmail o value c' s) = fetches s.
Proof. destruct o; [apply fetches_then | done]. Qed.

(** A lookup of a key that holds a future returns it and changes
    nothing. *)
Lemma call_hit op key s f :
  cache op s !! key = Some f → call op key s = (Some f, s).
Proof.
  intros H. destruct op; simpl in *;
    unfold resolveProfile, getPhotoUrl, getManager, getDirects;
    rewrite H; simpl; by rewrite H.
Qed.

Lemma call_fst op key s : (call op key s).1 = cache op (call op key s).2 !! key.
Proof. by destruct op. Qed.

Lemma call_miss_state op key s :
  cache op s !! key = None → (call op key s).2 = missed op key s.
Proof.
  intros H. destruct op; simpl in H |- *;
    unfold resolveProfile, getPhotoUrl, getManager, getDirects;
    rewrite H; try reflexivity.
  simpl. by rewrite lookup_insert_eq.
Qed.

Lemma cache_filed c op key key' s :
  cache c (filed op key s) !! key'
  = if decide (op = c ∧ key = key') then Some (length (promises s))
    else cache c s !! key'.
Proof.
  unfold filed. by rewrite cache_store, cache_with_promises, cache_with_fetches.
Qed.

Lemma cache_missed c op key s : cache c (missed op key s) = cache c (filed op key s).
Proof.
  unfold missed; destruct op; by rewrite ?cache_then, ?cache_cacheByIdOrEmail.
Qed.

Lemma fetches_missed op key s : fetches (missed op key s) = fetches s ++ [(op, key)].
Proof.
  unfold missed; destruct op; rewrite ?fetches_then, ?fetches_cacheByIdOrEmail;
    unfold filed; by rewrite fetches_store.
Qed.

(** A lookup of a key that holds none starts one fetch and files the
    new promise under the key, in the cache of the operation only. *)
Lemma call_miss op key s :
  cache op s !! key = None →
  (call op key s).1 = Some (length (promises s)) ∧
  fetches (call op key s).2 = fetches s ++ [(op, key)] ∧
  ∀ c key', cache c (call op key s).2 !! key'
            = if decide (op = c ∧ key = key') then Some (length (promises s))
              else cache c s !! key'.
Proof.
  intros H. rewrite call_fst, (call_miss_state _ _ _ H).
  split; [|split].
  - rewrite cache_missed, cache_filed. by rewrite decide_True.
  - apply fetches_missed.
  - intros c key'. by rewrite cache_missed, cache_filed.
Qed.

(** Settling changes the promise and queues its reactions; nothing
    else. *)
Lemma settle_cases p d s :
  settle p d s = s ∨
  ∃ rs op key,
    promises s !! p = Some (mkPromise Pending rs (Some (op, key))) ∧
    op = operation d ∧
    settle p d s
    = with_microtasks
        (microtasks s ++ match outcome d with
                         | Fulfilled v => (λ r, (r, v)) <$> rs
                         | _ => []
                         end)
        (with_promises
           (<[p := mkPromise (outcome d) [] (Some (op, key))]> (promises s)) s).
Proof.
  unfold settle. destruct (promises s !! p) as [[[|v|e] rs [[op key]|]]|] eqn:Hp;
    try by left.
  destruct (decide (op = operation d)) as [Hop|]; [|by left].
  right. exists rs, op, key. split; [done|]. split; [done|].
  destruct (outcome d); [|done|];
    unfold with_microtasks, with_promises; simpl; by rewrite app_nil_r.
Qed.

Lemma cache_settle c p d s : cache c (settle p d s) = cache c s.
Proof.
  destruct (settle_cases p d s) as [->|(rs & op & key & _ & _ & ->)]; [done|].
  by rewrite cache_with_microtasks, cache_with_promises.
Qed.

Lemma fetches_settle p d s : fetches (settle p d s) = fetches s.
Proof. by destruct (settle_cases p d s) as [->|(rs & op & key & _ & _ & ->)]. Qed.

Lemma cache_cacheValue c key value c' profile s :
  cache c (cacheValue value c' profile s) !! key
  = if assigns (CacheValue value c', VProfile profile) c key then Some value
    else cache c s !! key.
Proof.
  unfold cacheValue, assigns.
  destruct (email profile) as [mail|] eqn:Hmail.
  - destruct (truthy (Some mail)) eqn:Ht.
    + rewrite !cache_store. repeat case_decide; repeat case_bool_decide;
        simpl; try done; exfalso; intuition congruence.
    + rewrite !cache_store. repeat case_decide; repeat case_bool_decide;
        simpl; try done; exfalso; intuition congruence.
  - rewrite !cache_store. simpl. repeat case_decide; repeat case_bool_decide;
      simpl; try done; exfalso; intuition congruence.
Qed.

Lemma fetches_cacheValue value c' profile s :
  fetches (cacheValue value c' profile s) = fetches s.
Proof.
  unfold cacheValue. destruct (email profile) as [mail|];
    [destruct (truthy (Some mail))|]; by rewrite ?fetches_store.
Qed.

Lemma promises_cacheValue value c' profile s :
  promises (cacheValue value c' profile s) = promises s.
Proof.
  unfold cacheValue. destruct (email profile) as [mail|];
    [destruct (truthy (Some mail))|]; by rewrite ?promises_store.
Qed.

Lemma microtasks_cacheValue value c' profile s :
  microtasks (cacheValue value c' profile s) = microtasks s.
Proof.
  unfold cacheValue. destruct (email profile) as [mail|];
    [destruct (truthy (Some mail))|]; by rewrite ?microtasks_store.
Qed.

(** Seeding one direct report: two fulfilled promises are made and the
    callback for the first is queued, carrying the second. *)
Lemma cacheDirect_state s direct :
  cacheDirect s direct
  = with_microtasks
      (microtasks s ++ [(CacheValue (S (length (promises s))) Profile, VProfile direct)])
      (with_promises
         (promises s ++ [mkPromise (Fulfilled (VProfile direct)) [] None;
                         mkPromise (Fulfilled (VProfile direct)) [] None]) s).
Proof.
  unfold cacheDirect, Promise_resolve, alloc, cacheByIdOrEmail, then_. simpl.
  rewrite lookup_app_l by (rewrite length_app; simpl; lia).
  rewrite lookup_app_r by lia. rewrite Nat.sub_diag. simpl.
  rewrite length_app. simpl. rewrite Nat.add_1_r.
  unfold with_microtasks, with_promises. simpl. by rewrite <- app_assoc.
Qed.

Lemma cacheDirects_state directs :
  ∀ s, ∃ ps js,
    cacheDirects directs s
    = with_microtasks (microtasks s ++ js) (with_promises (promises s ++ ps) s) ∧
    (∀ pr, pr ∈ ps → ∃ v, pr = mkPromise (Fulfilled v) [] None) ∧
    (∀ j, j ∈ js → ∃ b direct,
         j = (CacheValue b Profile, VProfile direct) ∧
         (promises s ++ ps) !! b = Some (mkPromise (Fulfilled (VProfile direct)) [] None)).
Proof.
  induction directs as [|direct directs IH]; intros s.
  - exists [], []. split; [|split].
    + destruct s; unfold with_microtasks, with_promises; simpl.
      by rewrite !app_nil_r.
    + intros pr Hpr. by apply elem_of_nil in Hpr.
    + intros j Hj. by apply elem_of_nil in Hj.
  - unfold cacheDirects. simpl. fold (cacheDirects directs (cacheDirect s direct)).
    destruct (IH (cacheDirect s direct)) as (ps & js & E & Hps & Hjs).
    rewrite E, cacheDirect_state. simpl.
    set (two := [mkPromise (Fulfilled (VProfile direct)) [] None;
                 mkPromise (Fulfilled (VProfile direct)) [] None]).
    exists (two ++ ps),
           ((CacheValue (S (length (promises s))) Profile, VProfile direct) :: js).
    split; [|split].
    + unfold with_microtasks, with_promises. simpl. by rewrite <- !app_assoc.
    + intros pr [Hpr|Hpr]%elem_of_app; [|by apply Hps].
      exists (VProfile direct). unfold two in Hpr.
      apply elem_of_cons in Hpr as [->|Hpr]; [done|].
      by apply list_elem_of_singleton in Hpr as ->.
    + intros j [->|Hj]%elem_of_cons.
      * exists (S (length (promises s))), direct. split; [done|].
        rewrite app_assoc. rewrite lookup_app_l
          by (rewrite length_app; simpl; lia).
        rewrite lookup_app_r by lia.
        by replace (S (length (promises s)) - length (promises s))%nat with 1%nat by lia.
      * destruct (Hjs j Hj) as (b & d' & -> & Hb). exists b, d'. split; [done|].
        rewrite cacheDirect_state in Hb. simpl in Hb. by rewrite <- app_assoc in Hb.
Qed.

Lemma cache_cacheDirects c directs s : cache c (cacheDirects directs s) = cache c s.
Proof.
  destruct (cacheDirects_state directs s) as (ps & js & -> & _).
  by rewrite cache_with_microtasks, cache_with_promises.
Qed.

Lemma fetches_cacheDirects directs s : fetches (cacheDirects directs s) = fetches s.
Proof. by destruct (cacheDirects_state directs s) as (ps & js & -> & _). Qed.

Lemma cache_runJob c key j s :
  cache c (runJob j s) !! key
  = match j with
    | (CacheValue value _, _) =>
        if assigns j c key then Some value else cache c s !! key
    | _ => cache c s !! key
    end.
Proof.
  destruct j as [[value c'|] [profile|url|directs]]; simpl; try done.
  - apply (cache_cacheValue c key value c' profile s).
  - by rewrite cache_cacheDirects.
Qed.

Lemma fetches_runJob j s : fetches (runJob j s) = fetches s.
Proof.
  destruct j as [[value c'|] [profile|url|directs]]; simpl; try done.
  - apply fetches_cacheValue.
  - apply fetches_cacheDirects.
Qed.

(** Every event, seen from one key of one cache. *)
Lemma cache_step e s c key :
  cache c (step e s) !! key
  = match e with
    | Call op emailOrId =>
        match cache c s !! key with
        | Some f => Some f
        | None => if decide (op = c ∧ emailOrId = key)
                  then Some (length (promises s)) else None
        end
    | Settle _ _ => cache c s !! key
    | Microtask =>
        match microtasks s with
        | (CacheValue value c', v) :: _ =>
            if assigns (CacheValue value c', v) c key then Some value
            else cache c s !! key
        | _ => cache c s !! key
        end
    end.
Proof.
  destruct e as [op emailOrId|p d|]; simpl.
  - destruct (cache op s !! emailOrId) as [f|] eqn:Hop.
    + rewrite (call_hit _ _ _ _ Hop). simpl.
      destruct (cache c s !! key) eqn:Hc; [done|].
      rewrite decide_False; [done|]. intros [-> ->]. congruence.
    + destruct (call_miss _ _ _ Hop) as (_ & _ & ->).
      destruct (decide (op = c ∧ emailOrId = key)) as [[-> ->]|Hne].
      * by rewrite Hop.
      * by destruct (cache c s !! key).
  - by rewrite cache_settle.
  - destruct (microtasks s) as [|j rest]; [done|].
    rewrite cache_runJob, cache_with_microtasks. by destruct j as [[] ?].
Qed.

Lemma fetches_step e s :
  fetches (step e s)
  = fetches s ++ match e with
                 | Call op emailOrId =>
                     match cache op s !! emailOrId with
                     | None => [(op, emailOrId)]
                     | Some _ => []
                     end
                 | _ => []
                 end.
Proof.
  destruct e as [op emailOrId|p d|]; simpl.
  - destruct (cache op s !! emailOrId) as [f|] eqn:Hop.
    + rewrite (call_hit _ _ _ _ Hop). simpl. by rewrite app_nil_r.
    + by destruct (call_miss _ _ _ Hop) as (_ & -> & _).
  - by rewrite fetches_settle, app_nil_r.
  - rewrite app_nil_r. destruct (microtasks s) as [|j rest]; [done|].
    by rewrite fetches_runJob.
Qed.

Lemma run_snoc evs e s : run (evs ++ [e]) s = step e (run evs s).
Proof. unfold run. by rewrite foldl_app. Qed.

Lemma run_app evs evs' s : run (evs ++ evs') s = run evs' (run evs s).
Proof. unfold run. by rewrite foldl_app. Qed.

Lemma run_cons e evs s : run (e :: evs) s = run evs (step e s).
Proof. done. Qed.

(** A key, once in a cache, stays in it. *)
Lemma cache_step_is_Some e s c key :
  is_Some (cache c s !! key) → is_Some (cache c (step e s) !! key).
Proof.
  intros [f Hf]. rewrite cache_step, Hf.
  destruct e as [| |]; [eauto | eauto |].
  destruct (microtasks s) as [|[[value c'|] v] rest]; eauto.
  destruct (assigns _ _ _); eauto.
Qed.

Lemma cache_run_is_Some evs s c key :
  is_Some (cache c s !! key) → is_Some (cache c (run evs s) !! key).
Proof.
  revert s. induction evs as [|e evs IH]; intros s H; [done|].
  rewrite run_cons. by apply IH, cache_step_is_Some.
Qed.

End CacheFrame.

(* ===================================================================== *)
(** ** The caches: entries, lookups and fetches                           *)
(* ===================================================================== *)

Section CacheEntries.

Import Cache.
Implicit Types (s : State) (c op : Op) (key : string) (p value f : nat).

Lemma cache_step_undisturbed e s c key f :
  cache c s !! key = Some f →
  crossIndexes e s c key = false →
  cache c (step e s) !! key = Some f.
Proof.
  intros Hf Hq. rewrite cache_step, Hf. destruct e as [| |]; try done.
  unfold crossIndexes in Hq.
  destruct (microtasks s) as [|[[value c'|] v] rest]; try done. by rewrite Hq.
Qed.

Lemma cache_run_undisturbed evs :
  ∀ s c key f,
  cache c s !! key = Some f →
  undisturbed c key evs s = true →
  cache c (run evs s) !! key = Some f.
Proof.
  induction evs as [|e evs IH]; intros s c key f Hf Hq; [done|].
  simpl in Hq. apply andb_true_iff in Hq as [Hq1 Hq2].
  apply negb_true_iff in Hq1. rewrite run_cons.
  apply IH; [by apply cache_step_undisturbed | done].
Qed.

(** C2, as the code has it.  A key that holds a future is never
    removed from its cache, and a lookup of it returns that future and
    changes nothing.  The entry is replaced by no lookup and no
    settlement: it changes only when the callback of [cacheByIdOrEmail]
    runs for that cache with a profile whose id or email is the key, and
    it then holds the future that callback stores. *)
Theorem cache_entry_kept_until_cross_indexed s e c key f :
  cache c s !! key = Some f →
  call c key s = (Some f, s) ∧
  (∀ evs, is_Some (cache c (run evs s) !! key)) ∧
  (cache c (step e s) !! key = Some f ∨
   ∃ value profile rest,
     e = Microtask ∧
     microtasks s = (CacheValue value c, VProfile profile) :: rest ∧
     (id profile = key ∨ email profile = Some key) ∧
     cache c (step e s) !! key = Some value).
Proof.
  intros Hf. split; [by apply call_hit|]. split.
  { intros evs. apply cache_run_is_Some. eauto. }
  destruct (crossIndexes e s c key) eqn:Hq.
  - right. unfold crossIndexes in Hq. destruct e as [| |]; try done.
    destruct (microtasks s) as [|[[value c'|] [profile|url|directs]] rest] eqn:Hm;
      try done.
    exists value, profile, rest. rewrite cache_step, Hm, Hq.
    unfold assigns in Hq. apply andb_true_iff in Hq as [Hc Hk].
    apply bool_decide_eq_true in Hc as ->.
    split; [done|]. split; [done|]. split; [|done].
    apply orb_true_iff in Hk as [Hk|Hk].
    + left. by apply bool_decide_eq_true in Hk.
    + right. apply andb_true_iff in Hk as [_ Hk]. by apply bool_decide_eq_true in Hk.
  - left. by apply cache_step_undisturbed.
Qed.

Lemma cache_entry_kept_until_cross_indexed_witness :
  call Profile "u1" (run [annByMail; annById] initial)
  = (Some 1%nat, run [annByMail; annById] initial).
Proof.
  exact (proj1 (cache_entry_kept_until_cross_indexed
                  (run [annByMail; annById] initial) Microtask Profile "u1" 1%nat
                  eq_refl)).
Defined.

(** C2 as stated fails: the future filed under "u1" by the lookup by id
    is replaced by the future of the lookup by address as soon as that
    one is fulfilled with Ann's profile. *)
Lemma cache_entry_can_be_replaced :
  ¬ (∀ evs evs' c key f,
       cache c (run evs initial) !! key = Some f →
       (call c key (run evs' (run evs initial))).1 = Some f).
Proof.
  intros H.
  specialize (H [annByMail; annById] firstAnswered Profile "u1" 1%nat eq_refl).
  vm_compute in H. discriminate.
Qed.

(** A fetch is on record only for keys that are in the cache. *)
Lemma fetches_absent evs c key :
  cache c (run evs initial) !! key = None → (c, key) ∉ fetches (run evs initial).
Proof.
  induction evs as [|e evs IH] using rev_ind; intros Hnone.
  - apply not_elem_of_nil.
  - rewrite run_snoc in Hnone |- *. set (s := run evs initial) in *.
    assert (cache c s !! key = None) as Hs.
    { destruct (cache c s !! key) eqn:E; [|done].
      destruct (cache_step_is_Some e s c key) as [f' Hf']; [eauto|]. congruence. }
    rewrite fetches_step. intros [Hin|Hin]%elem_of_app; [by apply IH|].
    destruct e as [op k| |]; try by apply elem_of_nil in Hin.
    destruct (cache op s !! k) eqn:Hop; [by apply elem_of_nil in Hin|].
    apply list_elem_of_singleton in Hin. injection Hin as <- <-.
    rewrite cache_step, Hs in Hnone. by rewrite decide_True in Hnone.
Qed.

Lemma fetches_of_cached evs :
  ∀ s c key,
  is_Some (cache c s !! key) →
  filter (λ x, x = (c, key)) (fetches (run evs s))
  = filter (λ x, x = (c, key)) (fetches s).
Proof.
  induction evs as [|e evs IH]; intros s c key Hs; [done|].
  rewrite run_cons, IH by by apply cache_step_is_Some.
  rewrite fetches_step, filter_app.
  destruct e as [op k| |]; simpl; rewrite ?app_nil_r; try done.
  destruct (cache op s !! k) eqn:Hop; simpl; rewrite ?app_nil_r; try done.
  rewrite filter_cons_False, filter_nil, app_nil_r; [done|].
  intros [= -> ->]. rewrite Hop in Hs. by destruct Hs.
Qed.

End CacheEntries.

(* ===================================================================== *)
(** ** The promises: what each primitive does to them                     *)
(* ===================================================================== *)

Section CachePromises.

Import Cache.
Implicit Types (s : State) (c op : Op) (key : string) (p q value f : nat).
Implicit Types (pr : Promise) (r : Reaction).

Lemma grown_refl P pr : grown P pr pr.
Proof.
  split; [done|]. split; [done|]. exists []. split; [by rewrite app_nil_r|].
  intros r Hr. by apply elem_of_nil in Hr.
Qed.

Lemma grown_trans P pr1 pr2 pr3 :
  grown P pr1 pr2 → grown P pr2 pr3 → grown P pr1 pr3.
Proof.
  intros (Hs1 & Hm1 & l1 & Hr1 & Hl1) (Hs2 & Hm2 & l2 & Hr2 & Hl2).
  split; [congruence|]. split; [congruence|]. exists (l1 ++ l2).
  split; [by rewrite Hr2, Hr1, app_assoc|].
  intros r [?|?]%elem_of_app; auto.
Qed.

Lemma grown_weaken (P Q : Reaction → Prop) pr pr' :
  (∀ r, P r → Q r) → grown P pr pr' → grown Q pr pr'.
Proof.
  intros HPQ (Hs & Hm & l & Hr & Hl). split; [done|]. split; [done|].
  exists l. split; [done|]. auto.
Qed.

Lemma length_promises_then p r s :
  length (promises (then_ p r s)) = length (promises s).
Proof.
  destruct (then_cases p r s) as [(pr & _ & _ & ->)|[(pr & v & _ & _ & ->)| ->]];
    simpl; [by rewrite length_insert | done | done].
Qed.

Lemma promises_then p r s q pr :
  promises s !! q = Some pr →
  ∃ pr', promises (then_ p r s) !! q = Some pr' ∧ grown (λ r', r' = r ∧ q = p) pr pr'.
Proof.
  intros Hq.
  destruct (then_cases p r s) as [(pr0 & Hp & Hst & ->)|[(pr0 & v & _ & _ & ->)| ->]];
    simpl; try (exists pr; split; [done | apply grown_refl]).
  destruct (decide (q = p)) as [->|Hne].
  - rewrite list_lookup_insert_eq by by eapply lookup_lt_Some.
    eexists. split; [done|]. rewrite Hp in Hq. injection Hq as <-.
    split; [done|]. split; [done|]. exists [r]. split; [done|].
    by intros r' ->%list_elem_of_singleton.
  - rewrite list_lookup_insert_ne by done. exists pr. split; [done | apply grown_refl].
Qed.

(** On a pending promise the callback is registered. *)
Lemma then_registers p r s pr :
  promises s !! p = Some pr → state pr = Pending →
  ∃ pr', promises (then_ p r s) !! p = Some pr' ∧ r ∈ reactions pr'.
Proof.
  intros Hp Hst. unfold then_. rewrite Hp, Hst. simpl.
  rewrite list_lookup_insert_eq by by eapply lookup_lt_Some.
  eexists. split; [done|]. simpl. apply elem_of_app. right. by left.
Qed.

Lemma microtasks_then p r s :
  microtasks (then_ p r s)
  = microtasks s ++ match promises s !! p with
                    | Some pr => match state pr with
                                 | Fulfilled v => [(r, v)]
                                 | _ => []
                                 end
                    | None => []
                    end.
Proof.
  unfold then_. destruct (promises s !! p) as [pr|]; [|by rewrite app_nil_r].
  by destruct (state pr); simpl; rewrite ?app_nil_r.
Qed.

Lemma promises_filed op key s :
  promises (filed op key s)
  = promises s ++ [mkPromise Pending [] (Some (op, key))].
Proof. unfold filed. by rewrite promises_store. Qed.

Lemma microtasks_filed op key s : microtasks (filed op key s) = microtasks s.
Proof. unfold filed. by rewrite microtasks_store. Qed.

Lemma promises_cacheByIdOrEmail o value c s q pr :
  promises s !! q = Some pr →
  ∃ pr', promises (cacheByIdOrEmail o value c s) !! q = Some pr' ∧
         grown (λ r', r' = CacheValue value c ∧ o = Some q) pr pr'.
Proof.
  intros Hq. destruct o as [p|]; simpl.
  - destruct (promises_then p (CacheValue value c) s q pr Hq) as (pr' & Hpr' & Hg).
    exists pr'. split; [done|]. eapply grown_weaken; [|exact Hg].
    intros r' [-> ->]. done.
  - exists pr. split; [done | apply grown_refl].
Qed.

Lemma microtasks_cacheByIdOrEmail o value c s :
  ∃ js, microtasks (cacheByIdOrEmail o value c s) = microtasks s ++ js ∧
        ∀ j, j ∈ js → ∃ v, j = (CacheValue value c, v).
Proof.
  destruct o as [p|]; simpl.
  - rewrite microtasks_then. eexists. split; [done|].
    intros j Hj. destruct (promises s !! p) as [pr|]; [|by apply elem_of_nil in Hj].
    destruct (state pr) as [|v|]; try by apply elem_of_nil in Hj.
    apply list_elem_of_singleton in Hj. eauto.
  - exists []. split; [by rewrite app_nil_r|]. intros j Hj. by apply elem_of_nil in Hj.
Qed.

(** A missed lookup: the promises that were there keep their state and
    only gain callbacks that store the new promise in the cache of the
    operation. *)
Lemma missed_old op key s q pr :
  promises s !! q = Some pr →
  ∃ pr', promises (missed op key s) !! q = Some pr' ∧
         grown (λ r, r = CacheValue (length (promises s)) op ∧ op ≠ Profile) pr pr'.
Proof.
  intros Hq. pose proof (lookup_lt_Some _ _ _ Hq) as Hlt.
  assert (promises (filed op key s) !! q = Some pr) as Hf
    by (by rewrite promises_filed, lookup_app_l).
  set (n := length (promises s)) in *.
  assert (∀ r s0 pr0, promises s0 !! q = Some pr0 →
            ∃ pr', promises (then_ n r s0) !! q = Some pr' ∧
                   grown (λ r, r = CacheValue n op ∧ op ≠ Profile) pr0 pr') as Hthen.
  { intros r s0 pr0 H0. destruct (promises_then n r s0 q pr0 H0) as (pr' & ? & Hg).
    exists pr'. split; [done|]. eapply grown_weaken; [|exact Hg]. simpl. lia. }
  assert (op ≠ Profile → ∀ s0 pr0, promises s0 !! q = Some pr0 →
            ∃ pr', promises (cacheByIdOrEmail (profilesCache s !! key) n op s0) !! q
                   = Some pr' ∧
                   grown (λ r, r = CacheValue n op ∧ op ≠ Profile) pr0 pr') as Hcbe.
  { intros Hop s0 pr0 H0.
    destruct (promises_cacheByIdOrEmail (profilesCache s !! key) n op s0 q pr0 H0)
      as (pr' & ? & Hg).
    exists pr'. split; [done|]. eapply grown_weaken; [|exact Hg].
    by intros r [-> _]. }
  unfold missed. fold n. destruct op.
  - by apply Hthen.
  - by apply Hcbe.
  - destruct (Hcbe ltac:(done) _ _ Hf) as (pr1 & H1 & Hg1).
    destruct (Hthen (CacheValue n Profile) _ _ H1) as (pr2 & H2 & Hg2).
    exists pr2. split; [done|]. by eapply grown_trans.
  - destruct (Hcbe ltac:(done) _ _ Hf) as (pr1 & H1 & Hg1).
    destruct (Hthen CacheDirects _ _ H1) as (pr2 & H2 & Hg2).
    exists pr2. split; [done|]. by eapply grown_trans.
Qed.

Lemma length_promises_cacheByIdOrEmail o value c s :
  length (promises (cacheByIdOrEmail o value c s)) = length (promises s).
Proof. destruct o; [apply length_promises_then | done]. Qed.

Lemma length_promises_missed op key s :
  length (promises (missed op key s)) = S (length (promises s)).
Proof.
  unfold missed. destruct op;
    rewrite ?length_promises_then, ?length_promises_cacheByIdOrEmail,
      promises_filed, length_app; simpl; lia.
Qed.

(** A missed lookup: the new promise is pending, and [resolveProfile]
    and [getManager] have registered on it the callback that stores it
    in the profile cache. *)
Lemma missed_new op key s :
  ∃ pr', promises (missed op key s) !! length (promises s) = Some pr' ∧
    state pr' = Pending ∧ made_by pr' = Some (op, key) ∧
    (op = Profile ∨ op = Manager →
     CacheValue (length (promises s)) Profile ∈ reactions pr') ∧
    (∀ r, r ∈ reactions pr' →
          r = CacheDirects ∨ ∃ c, r = CacheValue (length (promises s)) c).
Proof.
  set (n := length (promises s)).
  set (P := λ r, r = CacheDirects ∨ ∃ c, r = CacheValue n c).
  set (new := mkPromise Pending [] (Some (op, key))).
  assert (promises (filed op key s) !! n = Some new) as Hf.
  { rewrite promises_filed, lookup_app_r by done. by rewrite Nat.sub_diag. }
  assert (∀ pr, grown P new pr →
            state pr = Pending ∧ made_by pr = Some (op, key) ∧
            ∀ r, r ∈ reactions pr → P r) as Hnew.
  { intros pr (Hs & Hm & l & Hr & Hl). split; [done|]. split; [done|].
    intros r. rewrite Hr. simpl. apply Hl. }
  assert (∀ r s0 pr0, P r → promises s0 !! n = Some pr0 →
            ∃ pr', promises (then_ n r s0) !! n = Some pr' ∧ grown P pr0 pr') as Hthen.
  { intros r s0 pr0 HP H0. destruct (promises_then n r s0 n pr0 H0) as (pr' & ? & Hg).
    exists pr'. split; [done|]. eapply grown_weaken; [|exact Hg].
    by intros r' [-> _]. }
  assert (∀ s0 pr0, promises s0 !! n = Some pr0 →
            ∃ pr', promises (cacheByIdOrEmail (profilesCache s !! key) n op s0) !! n
                   = Some pr' ∧ grown P pr0 pr') as Hcbe.
  { intros s0 pr0 H0.
    destruct (promises_cacheByIdOrEmail (profilesCache s !! key) n op s0 n pr0 H0)
      as (pr' & ? & Hg).
    exists pr'. split; [done|]. eapply grown_weaken; [|exact Hg].
    intros r' [-> _]. right. eauto. }
  assert (∀ s0 pr0, promises s0 !! n = Some pr0 → grown P new pr0 →
            ∃ pr', promises (then_ n (CacheValue n Profile) s0) !! n = Some pr' ∧
                   grown P new pr' ∧ CacheValue n Profile ∈ reactions pr') as Hreg.
  { intros s0 pr0 H0 Hg0.
    destruct (Hthen (CacheValue n Profile) s0 pr0 ltac:(right; eauto) H0)
      as (pr' & H' & Hg').
    exists pr'. split; [done|]. split; [by eapply grown_trans|].
    destruct (then_registers n (CacheValue n Profile) s0 pr0 H0) as (pr'' & H'' & Hin).
    { destruct Hg0 as (-> & _). done. }
    congruence. }
  unfold missed. fold n. destruct op.
  - destruct (Hreg _ _ Hf (grown_refl _ _)) as (pr' & H' & Hg' & Hin).
    exists pr'. split; [done|]. destruct (Hnew _ Hg') as (? & ? & ?). done.
  - destruct (Hcbe _ _ Hf) as (pr' & H' & Hg').
    exists pr'. split; [done|]. destruct (Hnew _ Hg') as (? & ? & ?).
    split; [done|]. split; [done|]. split; [by intros [|]|done].
  - destruct (Hcbe _ _ Hf) as (pr1 & H1 & Hg1).
    destruct (Hreg _ _ H1 Hg1) as (pr' & H' & Hg' & Hin).
    exists pr'. split; [done|]. destruct (Hnew _ Hg') as (? & ? & ?). done.
  - destruct (Hcbe _ _ Hf) as (pr1 & H1 & Hg1).
    destruct (Hthen CacheDirects _ _ ltac:(by left) H1) as (pr' & H' & Hg').
    exists pr'. split; [done|].
    destruct (Hnew pr' (grown_trans _ _ _ _ Hg1 Hg')) as (? & ? & ?).
    split; [done|]. split; [done|]. split; [by intros [|]|done].
Qed.

(** A missed lookup queues at most the callback that stores the new
    promise in the cache of the operation, and none for a profile
    lookup. *)
Lemma microtasks_missed op key s :
  ∃ js, microtasks (missed op key s) = microtasks s ++ js ∧
        ∀ j, j ∈ js →
             ∃ v, j = (CacheValue (length (promises s)) op, v) ∧ op ≠ Profile.
Proof.
  set (n := length (promises s)).
  assert (promises (filed op key s) !! n
          = Some (mkPromise Pending [] (Some (op, key)))) as Hf.
  { rewrite promises_filed, lookup_app_r by done. by rewrite Nat.sub_diag. }
  assert (∀ r s0 pr0, promises s0 !! n = Some pr0 → state pr0 = Pending →
            microtasks (then_ n r s0) = microtasks s0) as Hthen.
  { intros r s0 pr0 H0 Hst. by rewrite microtasks_then, H0, Hst, app_nil_r. }
  assert (∃ pr1, promises (cacheByIdOrEmail (profilesCache s !! key) n op
                             (filed op key s)) !! n = Some pr1 ∧
                 state pr1 = Pending) as (pr1 & H1 & Hst1).
  { destruct (promises_cacheByIdOrEmail (profilesCache s !! key) n op _ n _ Hf)
      as (pr1 & ? & Hs & _). by exists pr1. }
  destruct (microtasks_cacheByIdOrEmail (profilesCache s !! key) n op (filed op key s))
    as (js & Hjs & Hall).
  rewrite microtasks_filed in Hjs.
  unfold missed. fold n. destruct op.
  - exists []. rewrite (Hthen _ _ _ Hf eq_refl), microtasks_filed, app_nil_r.
    split; [done|]. intros j Hj. by apply elem_of_nil in Hj.
  - exists js. split; [done|]. intros j Hj. destruct (Hall j Hj) as [v ->]. eauto.
  - exists js. rewrite (Hthen _ _ _ H1 Hst1). split; [done|].
    intros j Hj. destruct (Hall j Hj) as [v ->]. eauto.
  - exists js. rewrite (Hthen _ _ _ H1 Hst1). split; [done|].
    intros j Hj. destruct (Hall j Hj) as [v ->]. eauto.
Qed.

(** The delivery of an answer settles: the promise is then fulfilled or
    rejected, and a profile promise is fulfilled with a profile. *)
Lemma outcome_not_pending d : outcome d ≠ Pending.
Proof.
  destruct d as [x|t x|t x|t x]; simpl.
  - by destruct (resolveProfileInternal x).
  - by destruct (getPhotoUrlInternal t x).
  - by destruct (getManagerInternal t x).
  - by destruct (getDirectsInternal t x).
Qed.

Lemma outcome_profile d v :
  operation d = Profile → outcome d = Fulfilled v → ∃ profile, v = VProfile profile.
Proof.
  destruct d as [x|t x|t x|t x]; try done. simpl. intros _.
  destruct (resolveProfileInternal x); [|done]. intros [= <-]. eauto.
Qed.

End CachePromises.

(* ===================================================================== *)
(** ** The invariant of the profile cache                                 *)
(* ===================================================================== *)

Section CacheInvariant.

Import Cache.
Implicit Types (s : State) (c op : Op) (key : string) (p q value f : nat).
Implicit Types (pr : Promise) (r : Reaction).

Lemma Inv_initial : Inv initial.
Proof. split; simpl; intros *; try done; by intros ?%elem_of_nil. Qed.

Lemma indexed_mono profile s s' :
  (∀ k, is_Some (profilesCache s !! k) → is_Some (profilesCache s' !! k)) →
  indexed profile s → indexed profile s'.
Proof. intros Hm [Hid Hmail]. split; [auto|]. intros mail ? ?. eauto. Qed.

Lemma Inv_missed op key s : Inv s → Inv (missed op key s).
Proof.
  intros [He Hj Hr Hreg].
  set (n := length (promises s)).
  destruct (missed_new op key s) as (new & Hnew & Hnst & Hnmb & Hnreg & Hnall).
  destruct (microtasks_missed op key s) as (js & Hjs & Hjall).
  pose proof (length_promises_missed op key s) as Hlen.
  fold n in Hnew, Hnreg, Hnall, Hjall, Hlen.
  assert (∀ k, profilesCache (missed op key s) !! k
               = if decide (op = Profile ∧ key = k) then Some n
                 else profilesCache s !! k) as Hcache.
  { intros k. pose proof (cache_missed Profile op key s) as E. simpl in E.
    rewrite E. apply (cache_filed Profile). }
  assert (∀ q pr', promises (missed op key s) !! q = Some pr' →
            (q = n ∧ pr' = new) ∨
            (∃ pr, promises s !! q = Some pr ∧
                   grown (λ r, r = CacheValue n op ∧ op ≠ Profile) pr pr')) as Hcell.
  { intros q pr' Hq. pose proof (lookup_lt_Some _ _ _ Hq) as Hlt. rewrite Hlen in Hlt.
    destruct (decide (q = n)) as [->|Hne]; [left; split; [done|congruence]|].
    right. destruct (lookup_lt_is_Some_2 (promises s) q) as [pr Hpr]; [fold n; lia|].
    destruct (missed_old op key s q pr Hpr) as (pr'' & Hq' & Hg).
    exists pr. split; [done|]. rewrite Hq in Hq'. by injection Hq' as <-. }
  split.
  - intros k f Hk. rewrite Hcache in Hk. case_decide as Hd.
    + injection Hk as <-. destruct Hd as [-> ->]. exists new. split; [done|]. by left.
    + destruct (He k f Hk) as (pr & Hpr & Hor).
      destruct (missed_old op key s f pr Hpr) as (pr' & Hpr' & Hs & Hm & _).
      exists pr'. split; [done|]. by rewrite Hs, Hm.
  - intros value v Hin. rewrite Hjs in Hin. apply elem_of_app in Hin as [Hin|Hin].
    + destruct (Hj value v Hin) as (pr & w & Hpr & Hst).
      destruct (missed_old op key s value pr Hpr) as (pr' & Hpr' & Hs & _).
      exists pr', w. split; [done|]. by rewrite Hs.
    + destruct (Hjall _ Hin) as (v' & [= <- <- <-] & Hop). done.
  - intros d pr' value Hd Hin.
    destruct (Hcell d pr' Hd) as [[-> ->]|(pr & Hpr & _ & _ & l & Hl & Hlall)].
    + destruct (Hnall _ Hin) as [?|[c [= ->]]]; done.
    + rewrite Hl in Hin. apply elem_of_app in Hin as [Hin|Hin]; [by eapply Hr|].
      destruct (Hlall _ Hin) as [[= <- <-] Hop]. done.
  - intros p pr' key' Hp Hmb.
    destruct (Hcell p pr' Hp) as [[-> ->]|(pr & Hpr & Hs & Hm & l & Hl & _)].
    + rewrite Hnst. apply Hnreg. left. rewrite Hnmb in Hmb. by injection Hmb.
    + rewrite Hs. rewrite Hm in Hmb. specialize (Hreg p pr key' Hpr Hmb).
      destruct (state pr) as [|[profile|url|directs]|e]; try done.
      * rewrite Hl. apply elem_of_app. by left.
      * destruct Hreg as [Hin|Hidx].
        -- left. rewrite Hjs. apply elem_of_app. by left.
        -- right. eapply indexed_mono; [|exact Hidx].
           intros k [f Hf]. rewrite Hcache, Hf.
           destruct (decide (op = Profile ∧ key = k)); by eexists.
Qed.

Lemma Inv_call op key s : Inv s → Inv (call op key s).2.
Proof.
  intros HI. destruct (cache op s !! key) as [f|] eqn:Hc.
  - by rewrite (call_hit _ _ _ _ Hc).
  - rewrite (call_miss_state _ _ _ Hc). by apply Inv_missed.
Qed.

Lemma Inv_settle p d s : Inv s → Inv (settle p d s).
Proof.
  intros HI.
  destruct (settle_cases p d s) as [->|(rs & op & key & Hp & Hop & ->)]; [done|].
  destruct HI as [He Hj Hr Hreg].
  pose proof (lookup_lt_Some _ _ _ Hp) as Hlt.
  set (cell := mkPromise (outcome d) [] (Some (op, key))).
  set (jobs := match outcome d with
               | Fulfilled v => (λ r, (r, v)) <$> rs
               | _ => []
               end).
  split; simpl.
  - intros k f Hk. destruct (He k f Hk) as (pr & Hpr & Hor).
    destruct (decide (f = p)) as [->|Hne].
    + exists cell. rewrite list_lookup_insert_eq by done. split; [done|].
      rewrite Hp in Hpr. injection Hpr as <-. simpl in Hor.
      destruct Hor as [Hor|[v Hv]]; [by left | done].
    + exists pr. by rewrite list_lookup_insert_ne.
  - intros value v [Hin|Hin]%elem_of_app.
    + destruct (Hj value v Hin) as (pr & w & Hpr & Hst).
      destruct (decide (value = p)) as [->|Hne].
      * rewrite Hp in Hpr. injection Hpr as <-. done.
      * exists pr, w. by rewrite list_lookup_insert_ne.
    + unfold jobs in Hin. destruct (outcome d) as [|w|e] eqn:Hout;
        try by apply elem_of_nil in Hin.
      apply list_elem_of_fmap in Hin as (r & [= <- <-] & Hr').
      assert (value = p) as -> by by eapply (Hr p _ value Hp).
      exists cell, v. rewrite list_lookup_insert_eq by done.
      split; [done|]. unfold cell. simpl. done.
  - intros q pr value Hq Hin. destruct (decide (q = p)) as [->|Hne].
    + rewrite list_lookup_insert_eq in Hq by done. injection Hq as <-.
      by apply elem_of_nil in Hin.
    + rewrite list_lookup_insert_ne in Hq by done. by eapply Hr.
  - intros q pr key' Hq Hmb. destruct (decide (q = p)) as [->|Hne].
    + rewrite list_lookup_insert_eq in Hq by done. injection Hq as <-.
      simpl in *. injection Hmb as -> ->.
      specialize (Hreg p _ key' Hp eq_refl). simpl in Hreg.
      destruct (outcome d) as [|v|e] eqn:Hout; [by destruct (outcome_not_pending d)| |done].
      destruct (outcome_profile d v (eq_sym Hop) Hout) as [profile ->].
      left. apply elem_of_app. right. unfold jobs.
      apply list_elem_of_fmap. by exists (CacheValue p Profile).
    + rewrite list_lookup_insert_ne in Hq by done.
      specialize (Hreg q pr key' Hq Hmb).
      destruct (state pr) as [|[profile|url|directs]|e]; try done.
      destruct Hreg as [Hin|Hidx]; [|by right].
      left. apply elem_of_app. by left.
Qed.

Lemma Inv_runJob j rest s : Inv s → microtasks s = j :: rest →
  Inv (runJob j (with_microtasks rest s)).
Proof.
  intros [He Hj Hr Hreg] Hm.
  assert (∀ j', j' ∈ rest → j' ∈ microtasks s) as Hrest
    by (intros j' ?; rewrite Hm; by right).
  destruct j as [[value c|] [profile|url|directs]]; simpl.
  - (* the callback of cacheByIdOrEmail *)
    set (j := (CacheValue value c, VProfile profile)) in *.
    assert (∀ k, profilesCache (cacheValue value c profile (with_microtasks rest s)) !! k
                 = if assigns j Profile k then Some value else profilesCache s !! k)
      as Hcache.
    { intros k.
      exact (cache_cacheValue Profile k value c profile (with_microtasks rest s)). }
    assert (∀ k, is_Some (profilesCache s !! k) →
                 is_Some (profilesCache (cacheValue value c profile
                                           (with_microtasks rest s)) !! k)) as Hmono.
    { intros k [f Hf]. rewrite Hcache, Hf. destruct (assigns j Profile k); by eexists. }
    split; rewrite ?promises_cacheValue, ?microtasks_cacheValue; simpl.
    + intros k f Hk. rewrite Hcache in Hk.
      destruct (assigns j Profile k) eqn:Ha; [|by apply He].
      injection Hk as <-. unfold j, assigns in Ha.
      apply andb_true_iff in Ha as [->%bool_decide_eq_true _].
      destruct (Hj value (VProfile profile)) as (pr & w & Hpr & Hst);
        [rewrite Hm; by left|].
      exists pr. split; [done|]. right. eauto.
    + intros value' v Hin. apply (Hj value' v). by apply Hrest.
    + done.
    + intros p pr key Hp Hmb. specialize (Hreg p pr key Hp Hmb).
      destruct (state pr) as [|[profile'|url|directs]|e]; try done.
      destruct Hreg as [Hin|Hidx]; [|right; by eapply indexed_mono].
      rewrite Hm in Hin. apply elem_of_cons in Hin as [Heq|Hin]; [|by left].
      right. unfold j in Heq. injection Heq as E1 E2 E3. subst value c profile'.
      split.
      * rewrite Hcache. unfold j, assigns.
        rewrite !bool_decide_eq_true_2 by done. simpl. by eexists.
      * intros mail Hmail Ht. rewrite Hcache. unfold j, assigns.
        rewrite Hmail, Ht, (bool_decide_eq_true_2 (Profile = Profile)) by done.
        rewrite (bool_decide_eq_true_2 (Some mail = Some mail)) by done.
        rewrite orb_true_r. simpl. by eexists.
  - split; simpl; try done.
    + intros value' v Hin. apply (Hj value' v). by apply Hrest.
    + intros p pr key Hp Hmb. specialize (Hreg p pr key Hp Hmb).
      destruct (state pr) as [|[profile'|url'|directs]|e]; try done.
      destruct Hreg as [Hin|Hidx]; [|by right].
      rewrite Hm in Hin. apply elem_of_cons in Hin as [Heq|Hin]; [done|by left].
  - split; simpl; try done.
    + intros value' v Hin. apply (Hj value' v). by apply Hrest.
    + intros p pr key Hp Hmb. specialize (Hreg p pr key Hp Hmb).
      destruct (state pr) as [|[profile'|url'|directs']|e]; try done.
      destruct Hreg as [Hin|Hidx]; [|by right].
      rewrite Hm in Hin. apply elem_of_cons in Hin as [Heq|Hin]; [done|by left].
  - split; simpl; try done.
    + intros value' v Hin. apply (Hj value' v). by apply Hrest.
    + intros p pr key Hp Hmb. specialize (Hreg p pr key Hp Hmb).
      destruct (state pr) as [|[profile'|url'|directs']|e]; try done.
      destruct Hreg as [Hin|Hidx]; [|by right].
      rewrite Hm in Hin. apply elem_of_cons in Hin as [Heq|Hin]; [done|by left].
  - split; simpl; try done.
    + intros value' v Hin. apply (Hj value' v). by apply Hrest.
    + intros p pr key Hp Hmb. specialize (Hreg p pr key Hp Hmb).
      destruct (state pr) as [|[profile'|url'|directs']|e]; try done.
      destruct Hreg as [Hin|Hidx]; [|by right].
      rewrite Hm in Hin. apply elem_of_cons in Hin as [Heq|Hin]; [done|by left].
  - (* the callback of getDirects *)
    destruct (cacheDirects_state directs (with_microtasks rest s))
      as (ps & js & -> & Hps & Hjs). simpl in *.
    assert (∀ q pr, (promises s ++ ps) !! q = Some pr →
              promises s !! q = Some pr ∨
              ∃ v, pr = mkPromise (Fulfilled v) [] None) as Hcell.
    { intros q pr Hq. apply lookup_app_Some in Hq as [Hq|[_ Hq]]; [by left|].
      right. apply Hps. by eapply list_elem_of_lookup_2. }
    split; simpl.
    + intros k f Hk. destruct (He k f Hk) as (pr & Hpr & Hor).
      exists pr. split; [|done]. by apply lookup_app_l_Some.
    + intros value v [Hin|Hin]%elem_of_app.
      * destruct (Hj value v (Hrest _ Hin)) as (pr & w & Hpr & Hst).
        exists pr, w. split; [|done]. by apply lookup_app_l_Some.
      * destruct (Hjs _ Hin) as (b & direct & [= <- <-] & Hb).
        eexists _, _. split; [exact Hb|done].
    + intros d pr value Hd Hin. destruct (Hcell d pr Hd) as [Hd'|[v ->]].
      * by eapply Hr.
      * by apply elem_of_nil in Hin.
    + intros p pr key Hp Hmb. destruct (Hcell p pr Hp) as [Hp'|[v ->]]; [|done].
      specialize (Hreg p pr key Hp' Hmb).
      destruct (state pr) as [|[profile'|url'|directs']|e]; try done.
      destruct Hreg as [Hin|Hidx]; [|by right].
      rewrite Hm in Hin. apply elem_of_cons in Hin as [Heq|Hin]; [done|].
      left. apply elem_of_app. by left.
Qed.

Lemma Inv_step e s : Inv s → Inv (step e s).
Proof.
  intros HI. destruct e as [op key|p d|]; simpl.
  - by apply Inv_call.
  - by apply Inv_settle.
  - destruct (microtasks s) as [|j rest] eqn:Hm; [done|]. by apply Inv_runJob.
Qed.

Lemma Inv_run evs s : Inv s → Inv (run evs s).
Proof.
  revert s. induction evs as [|e evs IH]; intros s HI; [done|].
  rewrite run_cons. by apply IH, Inv_step.
Qed.

Lemma Inv_reachable evs : Inv (run evs initial).
Proof. apply Inv_run, Inv_initial. Qed.

End CacheInvariant.

(* ===================================================================== *)
(** ** Coalescing, cross-indexing and failures                            *)
(* ===================================================================== *)

Section CacheFacts.

Import Cache.
Implicit Types (s : State) (c op : Op) (key : string) (p q value f : nat).

Lemma filter_eq_absent {A} `{EqDecision A} (x : A) (l : list A) :
  x ∉ l → filter (λ y, y = x) l = [].
Proof.
  induction l as [|y l IH]; intros Hx; [done|].
  apply not_elem_of_cons in Hx as [Hne Hx].
  rewrite filter_cons_False by congruence. by apply IH.
Qed.

(** C3, as the code has it.  After a first lookup of a key its cache
    did not hold, the promise it made is pending, and whatever happens
    next a second lookup of the key finds a future in the cache, changes
    nothing and starts no fetch: exactly one fetch is on record for the
    key.  The future it returns is the one of the first lookup unless a
    [cacheByIdOrEmail] callback has cross-indexed the key in
    between. *)
Theorem second_lookup_starts_no_fetch evs op key evs' :
  cache op (run evs initial) !! key = None →
  let s1 := run evs initial in
  let f1 := length (promises s1) in
  let s2 := (call op key s1).2 in
  let s3 := run evs' s2 in
  (call op key s1).1 = Some f1 ∧
  stateOf f1 s2 = Some Pending ∧
  ∃ f2, call op key s3 = (Some f2, s3) ∧
        length (filter (λ x, x = (op, key)) (fetches s3)) = 1%nat ∧
        (undisturbed op key evs' s2 = true → f2 = f1).
Proof.
  intros Hnone. cbv zeta.
  set (s1 := run evs initial) in *. set (f1 := length (promises s1)).
  set (s2 := (call op key s1).2). set (s3 := run evs' s2).
  destruct (call_miss op key s1 Hnone) as (Hret & Hfetch & Hcache).
  assert (cache op s2 !! key = Some f1) as Hs2.
  { unfold s2. rewrite Hcache. by rewrite decide_True. }
  split; [done|]. split.
  { unfold s2. rewrite (call_miss_state _ _ _ Hnone).
    destruct (missed_new op key s1) as (new & Hnew & Hst & _).
    unfold stateOf, f1. rewrite Hnew. simpl. by rewrite Hst. }
  destruct (cache_run_is_Some evs' s2 op key) as [f2 Hf2]; [eauto|].
  exists f2. split; [by apply call_hit|]. split.
  - unfold s3. rewrite fetches_of_cached by eauto.
    unfold s2. rewrite Hfetch, filter_app, filter_eq_absent
      by by apply fetches_absent.
    by rewrite filter_cons_True.
  - intros Hq. pose proof (cache_run_undisturbed evs' s2 op key f1 Hs2 Hq) as E.
    rewrite Hf2 in E. by injection E.
Qed.

Lemma second_lookup_starts_no_fetch_witness :
  ∃ f2, call Profile "u1" (run [annByMail] (call Profile "u1" initial).2)
        = (Some f2, run [annByMail] (call Profile "u1" initial).2)
        ∧ f2 = 0%nat.
Proof.
  destruct (second_lookup_starts_no_fetch [] Profile "u1" [annByMail] eq_refl)
    as (_ & _ & f2 & Hcall & _ & Hsame).
  exists f2. split; [exact Hcall | exact (Hsame eq_refl)].
Defined.

(** C3 as stated fails: while the promise of the lookup by id is still
    pending, the answer to the lookup by address cross-indexes "u1", and
    a second lookup by id returns that other future. *)
Lemma second_lookup_can_return_other_future :
  ¬ (∀ evs evs' op key f1,
       cache op (run evs initial) !! key = None →
       (call op key (run evs initial)).1 = Some f1 →
       stateOf f1 (run evs' (call op key (run evs initial)).2) = Some Pending →
       (call op key (run evs' (call op key (run evs initial)).2)).1 = Some f1).
Proof.
  intros H.
  specialize (H [annByMail] firstAnswered Profile "u1" 1%nat eq_refl eq_refl eq_refl).
  vm_compute in H. discriminate.
Qed.

Lemma cacheValue_stores p profile s :
  let s' := runJob (CacheValue p Profile, VProfile profile) s in
  profilesCache s' !! id profile = Some p ∧
  ∀ mail, email profile = Some mail → truthy (Some mail) = true →
          profilesCache s' !! mail = Some p.
Proof.
  unfold runJob. split.
  - change (cache Profile (cacheValue p Profile profile s) !! id profile = Some p).
    rewrite cache_cacheValue. unfold assigns.
    rewrite (bool_decide_eq_true_2 (Profile = Profile)) by done.
    by rewrite (bool_decide_eq_true_2 (id profile = id profile)).
  - intros mail Hmail Ht.
    change (cache Profile (cacheValue p Profile profile s) !! mail = Some p).
    rewrite cache_cacheValue. unfold assigns.
    rewrite Hmail, Ht, (bool_decide_eq_true_2 (Profile = Profile)) by done.
    rewrite (bool_decide_eq_true_2 (Some mail = Some mail)) by done.
    by rewrite orb_true_r.
Qed.

(** C4.  Take a promise made by [resolveProfile] that has been
    fulfilled with a profile.  The callback registered on it stores that
    very promise under the profile's id and, when the email is truthy,
    under the email.  The callback is queued, or it has run and both
    keys are in the profile cache; and once it is no longer queued, every
    later [resolveProfile] by the id or by the email finds a future in
    the cache and changes nothing: no second fetch is started. *)
Theorem resolved_profile_indexed_by_id_and_email evs p pr key profile :
  let s := run evs initial in
  promises s !! p = Some pr →
  made_by pr = Some (Profile, key) →
  state pr = Fulfilled (VProfile profile) →
  (∀ s0, let s' := runJob (CacheValue p Profile, VProfile profile) s0 in
         profilesCache s' !! id profile = Some p ∧
         ∀ mail, email profile = Some mail → truthy (Some mail) = true →
                 profilesCache s' !! mail = Some p) ∧
  ((CacheValue p Profile, VProfile profile) ∈ microtasks s ∨ indexed profile s) ∧
  ((CacheValue p Profile, VProfile profile) ∉ microtasks s →
   ∀ evs' alt,
     alt = id profile ∨ (email profile = Some alt ∧ truthy (Some alt) = true) →
     ∃ f, call Profile alt (run evs' s) = (Some f, run evs' s) ∧
          fetches (call Profile alt (run evs' s)).2 = fetches (run evs' s)).
Proof.
  intros s Hp Hmb Hst.
  pose proof (inv_registered _ (Inv_reachable evs) p pr key Hp Hmb) as Hreg.
  fold s in Hreg. rewrite Hst in Hreg.
  split; [intros s0; apply cacheValue_stores|]. split; [exact Hreg|].
  intros Hrun evs' alt Halt.
  destruct Hreg as [Hin|[Hid Hmail]]; [done|].
  assert (is_Some (cache Profile s !! alt)) as Hsome.
  { destruct Halt as [->|[Hm Ht]]; [done | by apply Hmail]. }
  destruct (cache_run_is_Some evs' s Profile alt Hsome) as [f Hf].
  exists f. rewrite (call_hit Profile alt _ f Hf). done.
Qed.

Lemma resolved_profile_indexed_by_id_and_email_witness :
  ∃ f, call Profile "u1" (run [] (run annResolved initial))
       = (Some f, run [] (run annResolved initial)).
Proof.
  destruct (resolved_profile_indexed_by_id_and_email annResolved 0%nat
              (mkPromise (Fulfilled (VProfile (buildProfile enabledUser))) []
                 (Some (Profile, "ann@example.org")))
              "ann@example.org" (buildProfile enabledUser)
              eq_refl eq_refl eq_refl) as (_ & _ & Hhit).
  destruct (Hhit ltac:(vm_compute; apply not_elem_of_nil) [] "u1" (or_introl eq_refl))
    as (f & Hcall & _).
  exists f. exact Hcall.
Defined.




End CacheFacts.

(* ===================================================================== *)
(** ** The scenarios, run                                                 *)
(* ===================================================================== *)

(** Two people recorded as each other's manager: the ascent ends after
    15 lookups with 15 profiles. *)
Example getAllManagers_on_a_cycle :
  let r := Chain.getAllManagers cyclicChart "a" 0%nat in
  length (Chain.lookups r) = 15%nat ∧ Chain.world r = 15%nat ∧
  ∃ ms, Chain.returned r = Ok ms ∧ length ms = 15%nat.
Proof. vm_compute. split; [done|]. split; [done|]. eexists. by split. Qed.

(** A failure other than "NotFound" on the second lookup is thrown, and
    the manager already found is not returned. *)
Example getAllManagers_other_failure :
  Chain.returned
    (Chain.getAllManagers
       (λ key (w : nat),
          (if decide (key = "dev") then Ok (person "lead")
           else Throw (buildErrorFromResponse (mkResponse 500 "Server Error" (Ok ()))),
           S w))
       "dev" 0%nat)
  = Throw (Error "Server Error").
Proof. reflexivity. Qed.

(** Twenty requests enqueued back to back: the twentieth flushes all of
    them in one batch, and the queue is empty afterwards. *)
Example twentieth_request_flushes :
  let tok := Ok "token" in
  let net := Throw (Error "offline") in
  let st19 := foldl (λ st (_ : nat), (Batcher.enqueueRequest "/users/x" "GET" tok net st).1.2)
                Batcher.initial (seq 0 19) in
  size (Batcher.queue st19) = 19%nat ∧
  match Batcher.enqueueRequest "/users/x" "GET" tok net st19 with
  | (_, st20, Some flush) =>
      size (Batcher.snapshot flush) = 20%nat ∧ Batcher.queue st20 = ∅
  | _ => False
  end.
Proof. vm_compute. done. Qed.

(** Two lookups of the same key before anything is answered: one fetch,
    one future. *)
Example two_lookups_one_fetch :
  let '(first, s1) := Cache.call Cache.Manager "u1" Cache.initial in
  let '(second, s2) := Cache.call Cache.Manager "u1" s1 in
  first = second ∧ Cache.fetches s2 = [(Cache.Manager, "u1")].
Proof. by vm_compute. Qed.

(** Ann is resolved by her address; a later lookup by her id starts no
    fetch and returns the same future. *)
Example lookup_by_id_after_email :
  let s := Cache.run annResolved Cache.initial in
  Cache.call Cache.Profile "u1" s = (Some 0%nat, s) ∧
  Cache.fetches s = [(Cache.Profile, "ann@example.org")].
Proof. by vm_compute. Qed.

(** The direct reports of a manager are seeded into the profile cache,
    each under its id and its email, once the list has arrived and the
    callbacks have run; the disabled member is not among them. *)
Example directs_seed_profiles :
  let s := Cache.run
             [Cache.Call Cache.Directs "boss";
              Cache.Settle 0 (Cache.DDirects (Ok "token")
                                (Ok (mkResponse 200 "OK"
                                       (Ok [enabledUser; disabledUser; nullFlagUser]))));
              Cache.Microtask; Cache.Microtask; Cache.Microtask]
             Cache.initial in
  is_Some (Cache.profilesCache s !! "u1") ∧
  is_Some (Cache.profilesCache s !! "ann@example.org") ∧
  Cache.profilesCache s !! "u2" = None ∧
  is_Some (Cache.profilesCache s !! "u3") ∧
  Cache.fetches s = [(Cache.Directs, "boss")].
Proof. vm_compute. repeat split; by eexists. Qed.

(** When the token cannot be had, [processBatch] throws after it has
    emptied the queue: the three requests of the snapshot are neither
    resolved nor rejected. *)
Example processBatch_without_token :
  let flush := Batcher.processBatch (Throw (Error "not signed in"))
                 (Throw (Error "offline")) threeQueued in
  Batcher.thrown flush = Some (Error "not signed in") ∧
  Batcher.queue (Batcher.after flush) = ∅ ∧
  Batcher.settled <$> Batcher.snapshot flush !! "1" = Some None ∧
  Batcher.settled <$> Batcher.snapshot flush !! "2" = Some None ∧
  Batcher.settled <$> Batcher.snapshot flush !! "3" = Some None.
Proof. by vm_compute. Qed.

(* ===================================================================== *)
(** ** Chain traversal: the keys it asks for and the cut at 15            *)
(* ===================================================================== *)

Section ChainMore.

Import Chain.
Context {World : Type}.
Variable getManager : string → World → Result IPersonaProfile * World.

(** While the loop runs, the keys asked so far followed by the current
    key are the start key followed by the ids of the profiles found. *)
Lemma loop_trail start fuel :
  ∀ key res keys w res' oe keys' w',
  keys ++ [key] = start :: (id <$> res) →
  loop getManager fuel key res keys w = (res', oe, keys', w') →
  keys' = take (length keys') (start :: (id <$> res')) ∧
  length keys' = (length res' + match oe with Some _ => 1 | None => 0 end)%nat.
Proof.
  induction fuel as [|fuel IH]; intros key res keys w res' oe keys' w' Htrail E;
    simpl in E.
  - inversion E; subst. clear E.
    assert (length keys' = length res') as Hlen.
    { apply (f_equal length) in Htrail. rewrite length_app in Htrail.
      simpl in Htrail. rewrite length_fmap in Htrail. lia. }
    split; [|lia]. rewrite <- Htrail, take_app_length. done.
  - destruct (getManager key w) as [[manager|e] w1].
    + eapply IH; [|exact E].
      rewrite Htrail, fmap_app. done.
    + inversion E; subst. clear E. rewrite Htrail. split.
      * rewrite take_ge; [done|]. simpl. lia.
      * simpl. rewrite length_fmap. lia.
Qed.

(** An ascent ends at the id of the last profile it found, or where it
    started when it found none. *)
Lemma ascent_last key w ms key' w' :
  ascent getManager key w ms key' w' →
  last (key :: (id <$> ms)) = Some key'.
Proof.
  induction 1 as [key w | key w manager w' ms key'' w'' _ _ IH]; [done|].
  rewrite fmap_cons. by rewrite last_cons_cons.
Qed.

(** The loop runs along an ascent until the fuel is spent or a lookup
    fails, whichever comes first. *)
Lemma loop_runs fuel :
  ∀ key res keys w,
  ∃ found key' w',
    ascent getManager key w found key' w' ∧
    ((length found = fuel ∧
      loop getManager fuel key res keys w
      = (res ++ found, None, keys ++ take fuel (key :: (id <$> found)), w')) ∨
     ((length found < fuel)%nat ∧
      ∃ e w'', getManager key' w' = (Throw e, w'') ∧
        loop getManager fuel key res keys w
        = (res ++ found, Some e, keys ++ key :: (id <$> found), w''))).
Proof.
  induction fuel as [|fuel IH]; intros key res keys w.
  - exists [], key, w. split; [constructor|]. left. split; [done|].
    simpl. by rewrite !app_nil_r.
  - destruct (getManager key w) as [[manager|e] w1] eqn:Hget.
    + destruct (IH (id manager) (res ++ [manager]) (keys ++ [key]) w1)
        as (found & key' & w' & Hasc & [[Hlen E]|(Hlen & e & w'' & Hfail & E)]).
      * exists (manager :: found), key', w'.
        split; [by econstructor|]. left. split; [simpl; lia|].
        cbn [loop]. rewrite Hget, E, <- !app_assoc. done.
      * exists (manager :: found), key', w'.
        split; [by econstructor|]. right. split; [simpl; lia|].
        exists e, w''. split; [done|].
        cbn [loop]. rewrite Hget, E, <- !app_assoc. done.
    + exists [], key, w. split; [constructor|]. right. split; [simpl; lia|].
      exists e, w1. split; [done|].
      cbn [loop]. rewrite Hget, app_nil_r. done.
Qed.

(** X1.  [getAllManagers] asks first for the manager of the key it is
    given and then, each time, for the manager of the profile it has
    just found, by that profile's id.  Every call ends in one of two
    ways.  Either fifteen lookups in a row succeeded: it then returns
    the fifteen profiles, having made these fifteen lookups and no
    other.  Or fewer succeeded and the next one failed, the lookup by
    the id of the last profile found (by the start key when none was
    found): its lookups are then the successful ones followed by the
    failed one, and it returns the profiles found if the failure is
    named "NotFound" and throws that failure otherwise. *)
Theorem getAllManagers_follows_ids key w :
  ∃ found key' w',
    ascent getManager key w found key' w' ∧
    last (key :: (id <$> found)) = Some key' ∧
    ((length found = 15%nat ∧
      returned (getAllManagers getManager key w) = Ok found ∧
      lookups (getAllManagers getManager key w) = take 15 (key :: (id <$> found)) ∧
      world (getAllManagers getManager key w) = w') ∨
     ((length found < 15)%nat ∧
      ∃ e w'', getManager key' w' = (Throw e, w'') ∧
        returned (getAllManagers getManager key w)
        = (if decide (name e = "NotFound") then Ok found else Throw e) ∧
        lookups (getAllManagers getManager key w) = key :: (id <$> found) ∧
        world (getAllManagers getManager key w) = w'')).
Proof.
  destruct (loop_runs maxDepth key [] [] w)
    as (found & key' & w' & Hasc & [[Hlen E]|(Hlen & e & w'' & Hfail & E)]).
  - exists found, key', w'. split; [done|]. split; [by eapply ascent_last|].
    left. unfold getAllManagers. rewrite E. done.
  - exists found, key', w'. split; [done|]. split; [by eapply ascent_last|].
    right. split; [done|]. exists e, w''. split; [done|].
    unfold getAllManagers. rewrite E.
    destruct (decide (name e ≠ "NotFound")) as [Hne|Heq];
      destruct (decide (name e = "NotFound")); simpl;
      repeat split; congruence || tauto.
Qed.

(** X2.  When the resolver answers fifteen managers in a row, the
    traversal returns exactly these fifteen, without an error, after
    fifteen lookups: it leaves the world as the fifteenth answer left it
    and never asks for the manager of the fifteenth. *)
Theorem getAllManagers_cut_at_15 key w ms key' w' :
  ascent getManager key w ms key' w' →
  length ms = maxDepth →
  returned (getAllManagers getManager key w) = Ok ms ∧
  length (lookups (getAllManagers getManager key w)) = 15%nat ∧
  world (getAllManagers getManager key w) = w'.
Proof.
  intros Hasc Hlen.
  destruct (loop_ascent getManager _ _ _ _ _ Hasc 0%nat [] []) as (keys' & Hk & E).
  rewrite Nat.add_0_r, Hlen in E.
  assert (loop getManager 0 key' ([] ++ ms) keys' w' = (ms, None, keys', w')) as E0
    by reflexivity.
  rewrite E0 in E. unfold getAllManagers. rewrite E. cbn [returned lookups world].
  rewrite Hk, Hlen. done.
Qed.

(** The traversal after an ascent that ends in a failure. *)
Lemma getAllManagers_after_ascent key w ms key' w' e w'' :
  ascent getManager key w ms key' w' →
  (length ms < maxDepth)%nat →
  getManager key' w' = (Throw e, w'') →
  returned (getAllManagers getManager key w)
  = (if decide (name e = "NotFound") then Ok ms else Throw e)
  ∧ world (getAllManagers getManager key w) = w''.
Proof.
  intros Hasc Hlen Hfail.
  destruct (loop_ascent getManager _ _ _ _ _ Hasc (maxDepth - length ms) [] [])
    as (keys1 & Hlen1 & E1).
  replace (length ms + (maxDepth - length ms))%nat with maxDepth in E1 by lia.
  destruct (maxDepth - length ms)%nat as [|fuel] eqn:Hfuel; [lia|].
  assert (loop getManager (S fuel) key' ([] ++ ms) keys1 w'
          = (ms, Some e, keys1 ++ [key'], w'')) as E2.
  { cbn [loop]. by rewrite Hfail. }
  rewrite E2 in E1. unfold getAllManagers. rewrite E1.
  destruct (decide (name e ≠ "NotFound")) as [Hne|Heq];
    destruct (decide (name e = "NotFound")); simpl; split; congruence || tauto.
Qed.

End ChainMore.

Lemma getAllManagers_cut_at_15_witness :
  Chain.world (Chain.getAllManagers endlessChart "n" 0%nat) = 15%nat.
Proof.
  eapply (λ ms key' H1 H2,
            proj2 (proj2 (getAllManagers_cut_at_15 endlessChart "n" 0%nat ms key'
                            15%nat H1 H2))).
  - do 15 (eapply Chain.ascent_cons; [reflexivity|]). apply Chain.ascent_nil.
  - reflexivity.
Defined.

(** X3.  Over the directory, with the token at hand: when the managers
    [ms] have been fetched and the next request is answered with a status
    outside 200-299, the traversal returns [ms] if that status is 404 and
    otherwise throws the error made from the status text, whose name is
    "Error"; nothing of [ms] is returned then. *)
Theorem getAllManagers_over_directory tok directory key n ms key' n' response :
  Chain.ascent (ChainHttp.getManager (Ok tok) directory) key n ms key' n' →
  (length ms < Chain.maxDepth)%nat →
  directory key' = Ok response →
  ok response = false →
  Chain.returned (Chain.getAllManagers (ChainHttp.getManager (Ok tok) directory) key n)
  = if decide (status response = 404) then Ok ms
    else Throw (Error (statusText response)).
Proof.
  intros Hasc Hlen Hdir Hok.
  destruct (getAllManagers_after_ascent (ChainHttp.getManager (Ok tok) directory)
              key n ms key' n' (buildErrorFromResponse response) (S n') Hasc Hlen)
    as [-> _].
  { unfold ChainHttp.getManager, getManagerInternal. rewrite Hdir. simpl.
    by rewrite Hok. }
  unfold buildErrorFromResponse.
  destruct (Z.eqb_spec (status response) 404) as [E|E].
  - by rewrite !decide_True.
  - by rewrite !decide_False.
Qed.

Lemma getAllManagers_over_directory_witness :
  Chain.returned
    (Chain.getAllManagers
       (ChainHttp.getManager (Ok "token") (orgDirectory 403 "Forbidden")) "dev" 0%nat)
  = Throw (Error "Forbidden").
Proof.
  refine (getAllManagers_over_directory "token" (orgDirectory 403 "Forbidden") "dev" 0%nat
            (buildProfile <$> [mkGraphUser "lead" None None None None None None None None
                                  None JUndefined;
                               mkGraphUser "vp" None None None None None None None None
                                  None JUndefined;
                               mkGraphUser "ceo" None None None None None None None None
                                  None JUndefined])
            "ceo" 3%nat (mkResponse 403 "Forbidden" (Ok _)) _ _ eq_refl eq_refl).
  - do 3 (eapply Chain.ascent_cons; [reflexivity|]). apply Chain.ascent_nil.
  - vm_compute. lia.
Defined.

(* ===================================================================== *)
(** ** The batcher over time: batch sizes and the fate of each request    *)
(* ===================================================================== *)

Section BatcherMore.

Import Batcher BatcherRun.
Implicit Types (pq : gmap string PendingRequest) (rs : list BatchResponse).
Implicit Types (st : State) (log : list Flush).

Lemma dispatch_dom rs : ∀ pq r pq', dispatch rs pq = (r, pq') → dom pq' = dom pq.
Proof.
  induction rs as [|res rs IH]; intros pq r pq' E; simpl in E.
  - by inversion E.
  - destruct (pq !! res_id res) as [req|] eqn:Hreq; [|by inversion E].
    rewrite (IH _ _ _ E). apply dom_insert_lookup_L. eauto.
Qed.

(** A flush of a queue that holds something empties the queue, keeps the
    id counter and takes a snapshot with the same property names. *)
Lemma processBatch_flush tok net st :
  queue st ≠ ∅ →
  queue (after (processBatch tok net st)) = ∅ ∧
  lastRequestId (after (processBatch tok net st)) = lastRequestId st ∧
  dom (snapshot (processBatch tok net st)) = dom (queue st).
Proof.
  intros Hne. unfold processBatch.
  destruct (decide (size (queue st) = 0%nat)) as [H0|_].
  { by apply map_size_empty_iff in H0. }
  destruct tok as [tok|e]; [|done].
  destruct net as [response|e]; simpl.
  - unfold processResponse. destruct (ok response).
    + destruct (decoded response) as [rs|e]; simpl.
      * destruct (dispatch rs (queue st)) as [[[]|e] pq] eqn:E; simpl;
          unfold rejectAll; rewrite ?dom_fmap_L; by rewrite (dispatch_dom _ _ _ _ E).
      * unfold rejectAll. by rewrite dom_fmap_L.
    + simpl. unfold rejectAll. by rewrite dom_fmap_L.
  - unfold rejectAll. by rewrite dom_fmap_L.
Qed.

(** The two ways [enqueueRequest] can go. *)
Lemma enqueueRequest_cases u m tok net st :
  let n := (lastRequestId st + 1)%N in
  let q1 := <[pretty n := mkPending (pretty n) u m []]> (queue st) in
  ((size q1 < 20)%nat ∧
   ∃ st', enqueueRequest u m tok net st = (Ok (pretty n), st', None) ∧
          queue st' = q1 ∧ lastRequestId st' = n)
  ∨ ((20 ≤ size q1)%nat ∧
     ∃ r st' f, enqueueRequest u m tok net st = (r, st', Some f) ∧
                queue st' = ∅ ∧ lastRequestId st' = n ∧ dom (snapshot f) = dom q1).
Proof.
  intros n q1. unfold enqueueRequest. fold n. fold q1. cbn [queue].
  destruct (decide (20 ≤ size q1)%nat) as [Hge|Hlt].
  - right. split; [done|].
    set (st1 := {| queue := q1; lastRequestId := n; batchTimer := batchTimer st |}).
    destruct (processBatch_flush tok net st1) as (Hq & Hl & Hd).
    { simpl. intros E. rewrite E, map_size_empty in Hge. lia. }
    destruct (thrown (processBatch tok net st1)); by eexists _, _, _.
  - left. split; [lia|]. by eexists.
Qed.

(** X4.  However requests are enqueued and timers fire, fewer than 20
    requests wait in the queue between two events, and every batch that
    is flushed carries at least one and at most 20 requests. *)
Theorem batches_hold_at_most_20 evs :
  (size (queue (run evs (initial, [])).1) ≤ 19)%nat ∧
  ∀ f, f ∈ (run evs (initial, [])).2 → (1 ≤ size (snapshot f) ≤ 20)%nat.
Proof.
  induction evs as [|e evs IH] using rev_ind.
  - simpl. split; [by rewrite map_size_empty; lia|]. intros f Hf. by apply elem_of_nil in Hf.
  - unfold run in *. rewrite foldl_app. simpl.
    destruct (foldl (λ sl e, step e sl) (initial, []) evs) as [st log].
    destruct IH as [Hq Hlog]. simpl in Hq, Hlog.
    destruct e as [u m tok net|tok net]; simpl.
    + assert (size (<[pretty (lastRequestId st + 1)%N :=
                        mkPending (pretty (lastRequestId st + 1)%N) u m []]> (queue st))
              ≤ 20)%nat as Hle.
      { destruct (queue st !! pretty (lastRequestId st + 1)%N) eqn:Hk.
        - rewrite map_size_insert_Some by eauto. lia.
        - rewrite map_size_insert_None by done. lia. }
      destruct (enqueueRequest_cases u m tok net st)
        as [(Hlt & st' & -> & Hq' & _)|(Hge & r & st' & f & -> & Hq' & _ & Hd)]; simpl.
      * split; [rewrite Hq'; lia | done].
      * split; [by rewrite Hq', map_size_empty; lia|].
        intros f' [Hf'| ->%list_elem_of_singleton]%elem_of_app; [by apply Hlog|].
        rewrite <- size_dom, Hd, size_dom. lia.
    + destruct (decide (size (queue st) = 0%nat)) as [H0|Hne]; [done|]. simpl.
      destruct (processBatch_flush tok net st) as (Hq' & _ & Hd).
      { intros E. by rewrite E, map_size_empty in Hne. }
      split; [by rewrite Hq', map_size_empty; lia|].
      intros f' [Hf'| ->%list_elem_of_singleton]%elem_of_app; [by apply Hlog|].
      rewrite <- size_dom, Hd, size_dom. lia.
Qed.

Lemma holders_cons key st log :
  length (holders key (st, log))
  = ((if decide (is_Some (queue st !! key)) then 1 else 0)
     + length (filter (λ m, is_Some (m !! key)) (snapshot <$> log)))%nat.
Proof.
  unfold holders, places. simpl. rewrite filter_cons. by case_decide.
Qed.

Lemma conserved_insert st log st1 x :
  conserved (st, log) →
  queue st1 = <[pretty (lastRequestId st + 1)%N := x]> (queue st) →
  lastRequestId st1 = (lastRequestId st + 1)%N →
  conserved (st1, log).
Proof.
  intros [Hkeys Hone] Hq Hl. simpl in *.
  set (n := (lastRequestId st + 1)%N) in *.
  assert (∀ m, m ∈ snapshot <$> log → ¬ is_Some (m !! pretty n)) as Hfresh.
  { intros m Hm Hsome. destruct (Hkeys m (pretty n)) as (k & Hk & Hle); [by right|done|].
    apply (inj pretty) in Hk. lia. }
  assert (¬ is_Some (queue st !! pretty n)) as Hfreshq.
  { intros Hsome. destruct (Hkeys (queue st) (pretty n)) as (k & Hk & Hle);
      [by left|done|]. apply (inj pretty) in Hk. lia. }
  split; simpl.
  - intros m key Hm Hsome. unfold places in Hm. simpl in Hm.
    apply elem_of_cons in Hm as [->|Hm].
    + rewrite Hq in Hsome. destruct (decide (pretty n = key)) as [<-|Hne].
      * exists n. split; [done|]. lia.
      * rewrite lookup_insert_ne in Hsome by done.
        destruct (Hkeys (queue st) key) as (k & -> & Hle); [by left|done|].
        exists k. split; [done|]. lia.
    + destruct (Hkeys m key) as (k & -> & Hle); [by right|done|].
      exists k. split; [done|]. lia.
  - intros k Hk. rewrite holders_cons. rewrite Hl in Hk. fold n in Hk.
    destruct (decide (k = n)) as [->|Hne].
    + rewrite decide_True by (rewrite Hq, lookup_insert_eq; eauto).
      assert (filter (λ m, is_Some (m !! pretty n)) (snapshot <$> log) = []) as ->; [|done].
      induction (snapshot <$> log) as [|m l IHl]; [done|].
      rewrite filter_cons_False by (apply Hfresh; by left).
      apply IHl. intros m' Hm'. apply Hfresh. by right.
    + specialize (Hone k ltac:(lia)). rewrite holders_cons in Hone.
      assert (is_Some (queue st1 !! pretty k) ↔ is_Some (queue st !! pretty k)) as Hiff.
      { rewrite Hq, lookup_insert_ne; [done|]. intros E. apply (inj pretty) in E. done. }
      destruct (decide (is_Some (queue st !! pretty k)));
        destruct (decide (is_Some (queue st1 !! pretty k))); tauto || done.
Qed.

Lemma conserved_flush st log st' f :
  conserved (st, log) →
  queue st' = ∅ →
  lastRequestId st' = lastRequestId st →
  dom (snapshot f) = dom (queue st) →
  conserved (st', log ++ [f]).
Proof.
  intros [Hkeys Hone] Hq Hl Hd. simpl in *.
  assert (∀ key, is_Some (snapshot f !! key) ↔ is_Some (queue st !! key)) as Hiff.
  { intros key. by rewrite <- !elem_of_dom, Hd. }
  split; simpl.
  - rewrite Hl. intros m key Hm Hsome. unfold places in Hm. simpl in Hm.
    rewrite fmap_app in Hm.
    apply elem_of_cons in Hm as [->|[Hm| ->%list_elem_of_singleton]%elem_of_app].
    + rewrite Hq, lookup_empty in Hsome. by destruct Hsome.
    + apply (Hkeys m key); [by right|done].
    + apply (Hkeys (queue st) key); [by left|by apply Hiff].
  - rewrite Hl. intros k Hk. specialize (Hone k Hk).
    rewrite holders_cons in Hone |- *.
    rewrite decide_False by (rewrite Hq, lookup_empty; by intros []).
    rewrite fmap_app, filter_app, length_app. simpl.
    rewrite filter_cons, filter_nil.
    destruct (decide (is_Some (queue st !! pretty k)));
      destruct (decide (is_Some (snapshot f !! pretty k)));
      simpl; try lia; exfalso; specialize (Hiff (pretty k)); tauto.
Qed.

(** X5.  However requests are enqueued and timers fire, every request id
    handed out so far is held in exactly one place, the queue or the
    snapshot of one flush, and these hold nothing else: no pending
    request is overwritten by a later one, lost at a flush, or flushed
    twice. *)
Theorem batcher_holds_each_request_once evs :
  conserved (run evs (initial, [])).
Proof.
  induction evs as [|e evs IH] using rev_ind.
  - split; simpl.
    + intros m key Hm Hsome. unfold places in Hm. simpl in Hm.
      apply list_elem_of_singleton in Hm as ->.
      rewrite lookup_empty in Hsome. by destruct Hsome.
    + intros k Hk. lia.
  - unfold run in *. rewrite foldl_app. simpl.
    destruct (foldl (λ sl e, step e sl) (initial, []) evs) as [st log].
    destruct e as [u m tok net|tok net]; simpl.
    + set (n := (lastRequestId st + 1)%N).
      set (x := mkPending (pretty n) u m []).
      set (st1 := {| queue := <[pretty n := x]> (queue st); lastRequestId := n;
                     batchTimer := None |}).
      assert (conserved (st1, log)) as H1
        by exact (conserved_insert st log st1 x IH eq_refl eq_refl).
      destruct (enqueueRequest_cases u m tok net st)
        as [(Hlt & st' & -> & Hq' & Hl')|(Hge & r & st' & f & -> & Hq' & Hl' & Hd)].
      * exact (conserved_insert st log st' _ IH Hq' Hl').
      * exact (conserved_flush st1 log st' f H1 Hq' Hl' Hd).
    + destruct (decide (size (queue st) = 0%nat)) as [H0|Hne]; [done|].
      destruct (processBatch_flush tok net st) as (Hq' & Hl' & Hd).
      { intros E. by rewrite E, map_size_empty in Hne. }
      exact (conserved_flush st log _ _ IH Hq' Hl' Hd).
Qed.

Lemma dispatch_app rs1 rs2 :
  ∀ pq, dispatch (rs1 ++ rs2) pq
        = match dispatch rs1 pq with
          | (Ok _, pq1) => dispatch rs2 pq1
          | (Throw e, pq1) => (Throw e, pq1)
          end.
Proof.
  induction rs1 as [|res rs1 IH]; intros pq; simpl; [done|].
  by destruct (pq !! res_id res).
Qed.

(** X6.  When every entry of a successful batch response names a request
    of the snapshot, a request is resolved with the first entry that
    carries its id; further entries with that id are delivered to a
    promise that is settled already and change nothing; a request no
    entry names stays pending. *)
Theorem processBatch_first_entry_wins tok response rs st i req :
  queue st !! i = Some req →
  calls req = [] →
  ok response = true →
  decoded response = Ok rs →
  (∀ res, res ∈ rs → is_Some (queue st !! res_id res)) →
  ∃ req', snapshot (processBatch (Ok tok) (Ok response) st) !! i = Some req' ∧
          calls req' = Ok <$> answered i rs ∧
          settled req' = Ok <$> head (answered i rs).
Proof.
  intros Hreq Hcalls Hok Hdec Hknown.
  assert (queue st ≠ ∅) as Hne by (intros E; by rewrite E, lookup_empty in Hreq).
  rewrite (processBatch_snapshot _ _ _ Hne). unfold processResponse.
  rewrite Hok, Hdec.
  destruct (proj2 (dispatch_ok_iff rs (queue st)) Hknown) as [pq' E]. rewrite E.
  destruct (dispatch_lookup _ _ _ _ E i) as (l & _ & Hall & Hlook).
  rewrite (Hall eq_refl), Hreq in Hlook. simpl in Hlook.
  eexists. split; [exact Hlook|].
  assert (calls (foldl onResolve req (answered i rs)) = Ok <$> answered i rs) as Hc
    by (by rewrite calls_resolved, Hcalls).
  split; [exact Hc|]. unfold settled. rewrite Hc. by destruct (answered i rs).
Qed.

Lemma processBatch_first_entry_wins_witness :
  ∃ req', snapshot (processBatch (Ok "token")
                      (Ok (mkResponse 200 "OK" (Ok twoAnswersForOne))) threeQueued)
            !! "1" = Some req'
          ∧ settled req' = Some (Ok (answer 1 enabledUser)).
Proof.
  destruct (processBatch_first_entry_wins "token"
              (mkResponse 200 "OK" (Ok twoAnswersForOne)) twoAnswersForOne threeQueued
              "1" (mkPending "1" "/users/u1" "GET" []) eq_refl eq_refl eq_refl eq_refl)
    as (req' & Hlook & _ & Hset).
  - intros res Hres. unfold twoAnswersForOne in Hres.
    apply elem_of_cons in Hres as [->|Hres]; [by eexists|].
    apply elem_of_cons in Hres as [->|Hres]; [by eexists|].
    apply list_elem_of_singleton in Hres as ->. by eexists.
  - exists req'. split; [exact Hlook | exact Hset].
Defined.

(** X7.  When an entry of a successful batch response names no request
    of the snapshot, the entries after it are never delivered: a request
    answered before the stray entry keeps that answer, and every other
    request of the snapshot is rejected with the [TypeError] the stray
    entry caused. *)
Theorem processBatch_stray_entry tok response rs1 stray rs2 st i req :
  queue st !! i = Some req →
  calls req = [] →
  ok response = true →
  decoded response = Ok (rs1 ++ stray :: rs2) →
  (∀ res, res ∈ rs1 → is_Some (queue st !! res_id res)) →
  queue st !! res_id stray = None →
  ∃ req', snapshot (processBatch (Ok tok) (Ok response) st) !! i = Some req' ∧
          settled req'
          = Some (match head (answered i rs1) with
                  | Some res => Ok res
                  | None => Throw (TypeError "Cannot read properties of undefined")
                  end).
Proof.
  intros Hreq Hcalls Hok Hdec Hknown Hstray.
  assert (queue st ≠ ∅) as Hne by (intros E; by rewrite E, lookup_empty in Hreq).
  rewrite (processBatch_snapshot _ _ _ Hne). unfold processResponse.
  rewrite Hok, Hdec, dispatch_app.
  destruct (proj2 (dispatch_ok_iff rs1 (queue st)) Hknown) as [pq1 E]. rewrite E.
  assert (pq1 !! res_id stray = None) as Hstray1.
  { apply not_elem_of_dom. rewrite (dispatch_dom _ _ _ _ E). by apply not_elem_of_dom. }
  simpl. rewrite Hstray1.
  destruct (dispatch_lookup _ _ _ _ E i) as (l & _ & Hall & Hlook).
  rewrite (Hall eq_refl), Hreq in Hlook. simpl in Hlook.
  eexists. unfold rejectAll. rewrite lookup_fmap, Hlook. split; [done|].
  rewrite settled_rejected. unfold settled.
  rewrite calls_resolved, Hcalls. simpl. by destruct (answered i rs1).
Qed.

Lemma processBatch_stray_entry_witness :
  ∃ req', snapshot (processBatch (Ok "token")
                      (Ok (mkResponse 200 "OK" (Ok strayAnswer))) threeQueued)
            !! "2" = Some req'
          ∧ settled req' = Some (Throw (TypeError "Cannot read properties of undefined")).
Proof.
  destruct (processBatch_stray_entry "token" (mkResponse 200 "OK" (Ok strayAnswer))
              [answer 1 enabledUser] (answer 7 disabledUser) [answer 2 disabledUser]
              threeQueued "2" (mkPending "2" "/users/u2" "GET" [])
              eq_refl eq_refl eq_refl eq_refl)
    as (req' & Hlook & Hset).
  - intros res ->%list_elem_of_singleton. by eexists.
  - reflexivity.
  - exists req'. split; [exact Hlook | exact Hset].
Defined.

End BatcherMore.

(** Twenty-one requests and a timer: the twentieth request flushes
    twenty, the timer flushes the one that is left. *)
Example twenty_one_requests :
  let sl := BatcherRun.run twentyOneThenTimer (Batcher.initial, []) in
  (size ∘ Batcher.snapshot) <$> sl.2 = [20%nat; 1%nat] ∧ Batcher.queue sl.1 = ∅.
Proof. by vm_compute. Qed.

(* ===================================================================== *)
(** ** The caches: promises and microtasks from one event to the next     *)
(* ===================================================================== *)

Section CacheSteps.

Import Cache CacheSeeding.
Implicit Types (s : State) (c op : Op) (key : string) (p q value f : nat).
Implicit Types (pr : Promise) (r : Reaction) (j : Job).

Lemma microtasks_runJob j s : ∃ js, microtasks (runJob j s) = microtasks s ++ js.
Proof.
  destruct j as [[value c|] [profile|url|directs]]; simpl;
    try (exists []; by rewrite app_nil_r).
  - exists []. by rewrite microtasks_cacheValue, app_nil_r.
  - destruct (cacheDirects_state directs s) as (ps & js & -> & _). by exists js.
Qed.

Lemma promises_runJob j s p pr :
  promises s !! p = Some pr → promises (runJob j s) !! p = Some pr.
Proof.
  intros Hp. destruct j as [[value c|] [profile|url|directs]]; simpl; try done.
  - by rewrite promises_cacheValue.
  - destruct (cacheDirects_state directs s) as (ps & js & -> & _). simpl.
    by apply lookup_app_l_Some.
Qed.

(** A queued callback stays queued until it is the one that runs. *)
Lemma microtasks_step e s j :
  j ∈ microtasks s →
  j ∈ microtasks (step e s) ∨ (e = Microtask ∧ ∃ rest, microtasks s = j :: rest).
Proof.
  intros Hj. destruct e as [op key|p d|]; simpl.
  - left. destruct (cache op s !! key) as [f|] eqn:Hc.
    + by rewrite (call_hit _ _ _ _ Hc).
    + rewrite (call_miss_state _ _ _ Hc).
      destruct (microtasks_missed op key s) as (js & -> & _). apply elem_of_app. by left.
  - left. destruct (settle_cases p d s) as [->|(rs & op & key & _ & _ & ->)]; [done|].
    simpl. apply elem_of_app. by left.
  - destruct (microtasks s) as [|j0 rest] eqn:Hm; [by apply elem_of_nil in Hj|].
    apply elem_of_cons in Hj as [->|Hj]; [right; eauto|]. left.
    destruct (microtasks_runJob j0 (with_microtasks rest s)) as (js & ->).
    simpl. apply elem_of_app. by left.
Qed.

(** A promise from one event to the next: it keeps its maker; it keeps
    its state and its callbacks, unless the event settles it, and then its
    callbacks are queued when it is fulfilled. *)
Lemma promise_step e s p pr :
  promises s !! p = Some pr →
  ∃ pr', promises (step e s) !! p = Some pr' ∧ made_by pr' = made_by pr ∧
    ((state pr' = state pr ∧ ∀ r, r ∈ reactions pr → r ∈ reactions pr') ∨
     (state pr = Pending ∧
      ∃ d op key, e = Settle p d ∧ made_by pr = Some (op, key) ∧ op = operation d ∧
        state pr' = outcome d ∧
        ∀ r v, r ∈ reactions pr → outcome d = Fulfilled v →
               (r, v) ∈ microtasks (step e s))).
Proof.
  intros Hp. destruct e as [op key|p0 d|]; simpl.
  - destruct (cache op s !! key) as [f|] eqn:Hc.
    + rewrite (call_hit _ _ _ _ Hc). simpl. exists pr. split; [done|]. split; [done|].
      by left.
    + rewrite (call_miss_state _ _ _ Hc).
      destruct (missed_old op key s p pr Hp) as (pr' & Hp' & Hs & Hm & l & Hl & _).
      exists pr'. split; [done|]. split; [done|]. left. split; [done|].
      intros r Hr. rewrite Hl. apply elem_of_app. by left.
  - destruct (settle_cases p0 d s) as [->|(rs & op & key & Hp0 & Hop & ->)].
    { exists pr. split; [done|]. split; [done|]. by left. }
    simpl. pose proof (lookup_lt_Some _ _ _ Hp0) as Hlt.
    destruct (decide (p = p0)) as [->|Hne].
    + rewrite list_lookup_insert_eq by done. eexists. split; [done|].
      rewrite Hp0 in Hp. injection Hp as <-. simpl. split; [done|]. right.
      split; [done|]. exists d, op, key. split; [done|]. split; [done|].
      split; [done|]. split; [done|].
      intros r v Hr ->. apply elem_of_app. right. apply list_elem_of_fmap. eauto.
    + rewrite list_lookup_insert_ne by done. exists pr. split; [done|].
      split; [done|]. by left.
  - exists pr. split; [|split; [done|by left]].
    destruct (microtasks s) as [|j rest]; [done|]. by apply promises_runJob.
Qed.

(** A settled promise keeps its state. *)
Lemma stateOf_step e s p st :
  stateOf p s = Some st → st ≠ Pending → stateOf p (step e s) = Some st.
Proof.
  unfold stateOf. intros Hst Hne.
  destruct (promises s !! p) as [pr|] eqn:Hp; [|done]. simpl in Hst.
  injection Hst as <-.
  destruct (promise_step e s p pr Hp) as (pr' & -> & _ & [[Hs _]|[Hpend _]]);
    simpl; congruence.
Qed.

Lemma stateOf_run evs :
  ∀ s p st, stateOf p s = Some st → st ≠ Pending → stateOf p (run evs s) = Some st.
Proof.
  induction evs as [|e evs IH]; intros s p st Hst Hne; [done|].
  rewrite run_cons. apply IH; [by apply stateOf_step | done].
Qed.

(** The promise of [getDirects] is pending and carries the callback that
    seeds the profile cache. *)
Lemma missed_new_directs key s :
  ∃ pr', promises (missed Directs key s) !! length (promises s) = Some pr' ∧
         CacheDirects ∈ reactions pr'.
Proof.
  set (n := length (promises s)).
  assert (promises (filed Directs key s) !! n
          = Some (mkPromise Pending [] (Some (Directs, key)))) as Hf.
  { rewrite promises_filed, lookup_app_r by done. by rewrite Nat.sub_diag. }
  destruct (promises_cacheByIdOrEmail (profilesCache s !! key) n Directs _ n _ Hf)
    as (pr1 & H1 & Hs1 & _).
  unfold missed. fold n. by apply (then_registers n CacheDirects _ pr1).
Qed.

(** A promise that an event makes. *)
Lemma promise_step_new e s p pr' :
  promises s !! p = None →
  promises (step e s) !! p = Some pr' →
  made_by pr' = None ∨
  ∃ op key, e = Call op key ∧ made_by pr' = Some (op, key) ∧ state pr' = Pending ∧
            (op = Manager → CacheValue p Profile ∈ reactions pr') ∧
            (op = Directs → CacheDirects ∈ reactions pr').
Proof.
  intros Hnone Hp'. destruct e as [op key|p0 d|]; simpl in Hp'.
  - destruct (cache op s !! key) as [f|] eqn:Hc.
    + rewrite (call_hit _ _ _ _ Hc) in Hp'. simpl in Hp'. congruence.
    + rewrite (call_miss_state _ _ _ Hc) in Hp'.
      pose proof (lookup_lt_Some _ _ _ Hp') as Hlt.
      rewrite length_promises_missed in Hlt.
      apply lookup_ge_None in Hnone.
      assert (p = length (promises s)) as -> by lia.
      destruct (missed_new op key s) as (new & Hnew & Hst & Hmb & Hreg & _).
      rewrite Hnew in Hp'. injection Hp' as <-.
      right. exists op, key. split; [done|]. split; [done|]. split; [done|]. split.
      * intros ->. apply Hreg. by right.
      * intros ->. destruct (missed_new_directs key s) as (pr'' & Hp'' & Hin).
        rewrite Hnew in Hp''. by injection Hp'' as <-.
  - destruct (settle_cases p0 d s) as [E|(rs & op & key & Hp0 & Hop & E)];
      rewrite E in Hp'; [congruence|].
    simpl in Hp'. apply lookup_lt_Some in Hp'. rewrite length_insert in Hp'.
    apply lookup_ge_None in Hnone. lia.
  - destruct (microtasks s) as [|[[value c|] [profile|url|directs]] rest];
      simpl in Hp'; rewrite ?promises_cacheValue in Hp'; simpl in Hp'; try congruence.
    destruct (cacheDirects_state directs (with_microtasks rest s))
      as (ps & js & E & Hps & _).
    rewrite E in Hp'. simpl in Hp'.
    apply lookup_app_Some in Hp' as [Hp'|[_ Hp']]; [congruence|].
    destruct (Hps pr') as [v ->]; [by eapply list_elem_of_lookup_2|]. by left.
Qed.

End CacheSteps.

(* ===================================================================== *)
(** ** The caches: one fetch per key, no retry, and seeding               *)
(* ===================================================================== *)

Section CacheMore.

Import Cache CacheSeeding.
Implicit Types (s : State) (c op : Op) (key : string) (p q value f : nat).
Implicit Types (pr : Promise) (r : Reaction) (j : Job).

(** X8.  However lookups, answers and callbacks interleave, no
    operation is started twice for the same key: the fetches on record
    are pairwise different, and each is for a key its cache holds. *)
Theorem no_key_is_fetched_twice evs :
  NoDup (fetches (run evs initial)) ∧
  ∀ op key, (op, key) ∈ fetches (run evs initial) →
            is_Some (cache op (run evs initial) !! key).
Proof.
  induction evs as [|e evs IH] using rev_ind.
  - split; [constructor|]. intros op key Hin. by apply elem_of_nil in Hin.
  - rewrite run_snoc. set (s := run evs initial) in *. destruct IH as [Hnd Hin].
    rewrite fetches_step. split.
    + apply NoDup_app. split; [done|]. split.
      * intros x Hx Hx'. destruct e as [op key| |]; try by apply elem_of_nil in Hx'.
        destruct (cache op s !! key) eqn:Hc; [by apply elem_of_nil in Hx'|].
        apply list_elem_of_singleton in Hx' as ->.
        by apply (fetches_absent evs op key).
      * destruct e as [op key| |]; try constructor.
        destruct (cache op s !! key); [constructor|]. apply NoDup_singleton.
    + intros op key [Hold|Hnew]%elem_of_app.
      * by apply cache_step_is_Some, Hin.
      * destruct e as [op' key'| |]; try by apply elem_of_nil in Hnew.
        destruct (cache op' s !! key') eqn:Hc; [by apply elem_of_nil in Hnew|].
        apply list_elem_of_singleton in Hnew. injection Hnew as -> ->.
        rewrite cache_step, Hc. rewrite decide_True by done. eauto.
Qed.

(** X9.  A failure is cached: once the future a key holds is rejected,
    it stays rejected, and as long as no callback cross-indexes the key a
    later lookup returns that same rejected future and starts no new
    fetch. *)
Theorem failed_lookup_is_not_retried s op key f e evs :
  cache op s !! key = Some f →
  stateOf f s = Some (Rejected e) →
  undisturbed op key evs s = true →
  call op key (run evs s) = (Some f, run evs s) ∧
  stateOf f (run evs s) = Some (Rejected e) ∧
  fetches (call op key (run evs s)).2 = fetches (run evs s).
Proof.
  intros Hf Hst Hq.
  pose proof (cache_run_undisturbed evs s op key f Hf Hq) as Hf'.
  rewrite (call_hit _ _ _ _ Hf'). split; [done|]. split; [|done].
  by apply stateOf_run.
Qed.

Lemma failed_lookup_is_not_retried_witness :
  call Profile "ghost" (run [annByMail; Microtask] (run ghostFails initial))
  = (Some 0%nat, run [annByMail; Microtask] (run ghostFails initial)).
Proof.
  exact (proj1 (failed_lookup_is_not_retried (run ghostFails initial) Profile "ghost"
                  0%nat (Error "Not found") [annByMail; Microtask]
                  eq_refl eq_refl eq_refl)).
Defined.

Lemma indexed_step e s profile : indexed profile s → indexed profile (step e s).
Proof.
  apply indexed_mono. intros k. apply (cache_step_is_Some e s Profile k).
Qed.

Lemma awaited_step e s profile : awaited profile s → awaited profile (step e s).
Proof.
  intros [[b Hb]|Hidx]; [|right; by apply indexed_step].
  destruct (microtasks_step e s _ Hb) as [Hb'|(-> & rest & Hm)]; [left; eauto|].
  right. simpl. rewrite Hm.
  destruct (cacheValue_stores b profile (with_microtasks rest s)) as [Hid Hmail].
  split; [by rewrite Hid|]. intros mail ? ?. rewrite Hmail by done. eauto.
Qed.

Lemma cacheDirects_queues directs :
  ∀ s direct, direct ∈ directs →
  ∃ b, (CacheValue b Profile, VProfile direct) ∈ microtasks (cacheDirects directs s).
Proof.
  induction directs as [|d directs IH]; intros s direct Hin;
    [by apply elem_of_nil in Hin|].
  unfold cacheDirects. simpl. fold (cacheDirects directs (cacheDirect s d)).
  apply elem_of_cons in Hin as [->|Hin]; [|by apply IH].
  destruct (cacheDirects_state directs (cacheDirect s d)) as (ps & js & -> & _).
  rewrite cacheDirect_state. simpl. eexists.
  apply elem_of_app. left. apply elem_of_app. right. by left.
Qed.

Lemma outcome_manager d v :
  operation d = Manager → outcome d = Fulfilled v → ∃ profile, v = VProfile profile.
Proof.
  destruct d as [x|t x|t x|t x]; try done. simpl. intros _.
  destruct (getManagerInternal t x); [|done]. intros [= <-]. eauto.
Qed.

Lemma outcome_directs d v :
  operation d = Directs → outcome d = Fulfilled v → ∃ directs, v = VDirects directs.
Proof.
  destruct d as [x|t x|t x|t x]; try done. simpl. intros _.
  destruct (getDirectsInternal t x); [|done]. intros [= <-]. eauto.
Qed.

Lemma Seeds_initial : Seeds initial.
Proof. split; intros p pr key Hp; done. Qed.

Lemma Seeds_step e s : Seeds s → Seeds (step e s).
Proof.
  intros [Hman Hdir]. split.
  - intros p pr' key Hp' Hmb.
    destruct (promises s !! p) as [pr|] eqn:Hp.
    + destruct (promise_step e s p pr Hp)
        as (pr'' & Hp'' & Hmb' & [[Hst Hre]|(Hpend & d & op & k & -> & Hmk & Hop & Hst & Hq)]);
        rewrite Hp' in Hp''; injection Hp'' as <-; rewrite Hmb' in Hmb;
        specialize (Hman p pr key Hp Hmb).
      * rewrite Hst. destruct (state pr) as [|[profile|url|directs]|err]; try done.
        -- by apply Hre.
        -- by apply awaited_step.
      * rewrite Hpend in Hman. rewrite Hst.
        destruct (outcome d) as [|v|err] eqn:Hout;
          [by destruct (outcome_not_pending d)| |done].
        rewrite Hmk in Hmb. injection Hmb as -> ->.
        destruct (outcome_manager d v (eq_sym Hop) Hout) as [profile ->].
        left. exists p. by apply Hq.
    + destruct (promise_step_new e s p pr' Hp Hp')
        as [Hnone|(op & k & -> & Hmk & Hst & Hreg & _)]; [congruence|].
      rewrite Hst. apply Hreg. congruence.
  - intros p pr' key Hp' Hmb.
    destruct (promises s !! p) as [pr|] eqn:Hp.
    + destruct (promise_step e s p pr Hp)
        as (pr'' & Hp'' & Hmb' & [[Hst Hre]|(Hpend & d & op & k & -> & Hmk & Hop & Hst & Hq)]);
        rewrite Hp' in Hp''; injection Hp'' as <-; rewrite Hmb' in Hmb;
        specialize (Hdir p pr key Hp Hmb).
      * rewrite Hst. destruct (state pr) as [|[profile|url|directs]|err]; try done.
        -- by apply Hre.
        -- destruct Hdir as [Hjob|Hall].
           ++ destruct (microtasks_step e s _ Hjob) as [Hjob'|(-> & rest & Hm)];
                [by left|].
              right. intros direct Hin. left. simpl. rewrite Hm.
              by apply cacheDirects_queues.
           ++ right. intros direct Hin. by apply awaited_step, Hall.
      * rewrite Hpend in Hdir. rewrite Hst.
        destruct (outcome d) as [|v|err] eqn:Hout;
          [by destruct (outcome_not_pending d)| |done].
        rewrite Hmk in Hmb. injection Hmb as -> ->.
        destruct (outcome_directs d v (eq_sym Hop) Hout) as [directs ->].
        left. by apply Hq.
    + destruct (promise_step_new e s p pr' Hp Hp')
        as [Hnone|(op & k & -> & Hmk & Hst & _ & Hreg)]; [congruence|].
      rewrite Hst. apply Hreg. congruence.
Qed.

Lemma Seeds_reachable evs : Seeds (run evs initial).
Proof.
  induction evs as [|e evs IH] using rev_ind; [apply Seeds_initial|].
  rewrite run_snoc. by apply Seeds_step.
Qed.

Lemma indexed_hits profile s evs alt :
  indexed profile s →
  alt = id profile ∨ (email profile = Some alt ∧ truthy (Some alt) = true) →
  ∃ f, call Profile alt (run evs s) = (Some f, run evs s).
Proof.
  intros [Hid Hmail] Halt.
  assert (is_Some (cache Profile s !! alt)) as Hsome.
  { destruct Halt as [->|[Hm Ht]]; [done | by apply Hmail]. }
  destruct (cache_run_is_Some evs s Profile alt Hsome) as [f Hf].
  exists f. by apply call_hit.
Qed.

(** X10.  [getManager] seeds the profile cache: once its future is
    fulfilled with the manager's profile and the callbacks have run, the
    manager's id, and the email when there is one, are keys of the
    profile cache, and every later [resolveProfile] by either finds a
    future there and starts no fetch. *)
Theorem manager_seeds_profile_cache evs p pr key profile :
  let s := run evs initial in
  promises s !! p = Some pr →
  made_by pr = Some (Manager, key) →
  state pr = Fulfilled (VProfile profile) →
  microtasks s = [] →
  indexed profile s ∧
  ∀ evs' alt,
    alt = id profile ∨ (email profile = Some alt ∧ truthy (Some alt) = true) →
    ∃ f, call Profile alt (run evs' s) = (Some f, run evs' s).
Proof.
  intros s Hp Hmb Hst Hm.
  pose proof (seeds_manager _ (Seeds_reachable evs) p pr key Hp Hmb) as H.
  fold s in H. rewrite Hst in H.
  assert (indexed profile s) as Hidx.
  { destruct H as [[b Hb]|Hidx]; [|done]. rewrite Hm in Hb. by apply elem_of_nil in Hb. }
  split; [done|]. intros evs' alt Halt. by eapply indexed_hits.
Qed.

Lemma manager_seeds_profile_cache_witness :
  ∃ f, call Profile "u2" (run [] (run managerArrives initial))
       = (Some f, run [] (run managerArrives initial)).
Proof.
  exact (proj2 (manager_seeds_profile_cache managerArrives 0%nat
                  (mkPromise (Fulfilled (VProfile (buildProfile disabledUser))) []
                     (Some (Manager, "u1")))
                  "u1" (buildProfile disabledUser) eq_refl eq_refl eq_refl eq_refl)
           [] "u2" (or_introl eq_refl)).
Defined.

(** X11.  [getDirects] seeds the profile cache: once its future is
    fulfilled with the list of direct reports and the callbacks have
    run, the id of every member of the list, and the email when there is
    one, are keys of the profile cache, and every later [resolveProfile]
    by either finds a future there and starts no fetch. *)
Theorem directs_seed_profile_cache evs p pr key directs :
  let s := run evs initial in
  promises s !! p = Some pr →
  made_by pr = Some (Directs, key) →
  state pr = Fulfilled (VDirects directs) →
  microtasks s = [] →
  ∀ direct, direct ∈ directs →
    indexed direct s ∧
    ∀ evs' alt,
      alt = id direct ∨ (email direct = Some alt ∧ truthy (Some alt) = true) →
      ∃ f, call Profile alt (run evs' s) = (Some f, run evs' s).
Proof.
  intros s Hp Hmb Hst Hm direct Hin.
  pose proof (seeds_directs _ (Seeds_reachable evs) p pr key Hp Hmb) as H.
  fold s in H. rewrite Hst in H.
  assert (indexed direct s) as Hidx.
  { destruct H as [Hjob|Hall]; [rewrite Hm in Hjob; by apply elem_of_nil in Hjob|].
    destruct (Hall direct Hin) as [[b Hb]|Hidx]; [|done].
    rewrite Hm in Hb. by apply elem_of_nil in Hb. }
  split; [done|]. intros evs' alt Halt. by eapply indexed_hits.
Qed.

Lemma directs_seed_profile_cache_witness :
  ∃ f, call Profile "u3" (run [] (run directsArrive initial))
       = (Some f, run [] (run directsArrive initial)).
Proof.
  refine (proj2 (directs_seed_profile_cache directsArrive 0%nat
                   (mkPromise (Fulfilled (VDirects [buildProfile enabledUser;
                                                    buildProfile nullFlagUser])) []
                      (Some (Directs, "boss")))
                   "boss" [buildProfile enabledUser; buildProfile nullFlagUser]
                   eq_refl eq_refl eq_refl eq_refl (buildProfile nullFlagUser) _)
            [] "u3" (or_introl eq_refl)).
  right. left.
Defined.

(** With the profile of the key at hand, a missed lookup of another
    operation queues exactly the callback that cross-indexes its
    future. *)
Lemma microtasks_missed_known op key s d pr v :
  op ≠ Profile →
  profilesCache s !! key = Some d →
  promises s !! d = Some pr →
  state pr = Fulfilled v →
  microtasks (missed op key s)
  = microtasks s ++ [(CacheValue (length (promises s)) op, v)].
Proof.
  intros Hop Hknown Hd Hst. set (n := length (promises s)).
  assert (promises (filed op key s) !! d = Some pr) as Hfd.
  { rewrite promises_filed. by apply lookup_app_l_Some. }
  assert (microtasks (cacheByIdOrEmail (profilesCache s !! key) n op (filed op key s))
          = microtasks s ++ [(CacheValue n op, v)]) as Hcbe.
  { rewrite Hknown. simpl. by rewrite microtasks_then, Hfd, Hst, microtasks_filed. }
  assert (∀ r, microtasks (then_ n r (cacheByIdOrEmail (profilesCache s !! key) n op
                                        (filed op key s)))
               = microtasks s ++ [(CacheValue n op, v)]) as Hthen.
  { intros r. rewrite microtasks_then, Hcbe.
    assert (promises (filed op key s) !! n
            = Some (mkPromise Pending [] (Some (op, key)))) as Hf.
    { rewrite promises_filed, lookup_app_r by done. by rewrite Nat.sub_diag. }
    destruct (promises_cacheByIdOrEmail (profilesCache s !! key) n op _ n _ Hf)
      as (pr1 & -> & -> & _). simpl. by rewrite app_nil_r. }
  unfold missed. fold n. destruct op; done.
Qed.

(** X12.  When the profile of a key is already resolved, a first
    [getPhotoUrl], [getManager] or [getDirects] for that key starts one
    fetch and, as soon as the callback it queued has run, its future is
    filed under the profile's id and (truthy) email as well: a later
    lookup of the same operation by either finds it and starts no
    fetch. *)
Theorem known_profile_cross_indexes s op key d pr profile :
  op ≠ Profile →
  cache op s !! key = None →
  profilesCache s !! key = Some d →
  promises s !! d = Some pr →
  state pr = Fulfilled (VProfile profile) →
  microtasks s = [] →
  let n := length (promises s) in
  let s' := run [Call op key; Microtask] s in
  (call op key s).1 = Some n ∧
  fetches s' = fetches s ++ [(op, key)] ∧
  cache op s' !! id profile = Some n ∧
  (∀ mail, email profile = Some mail → truthy (Some mail) = true →
           cache op s' !! mail = Some n) ∧
  (∀ evs alt,
     alt = id profile ∨ (email profile = Some alt ∧ truthy (Some alt) = true) →
     ∃ f, call op alt (run evs s') = (Some f, run evs s') ∧
          fetches (call op alt (run evs s')).2 = fetches (run evs s')).
Proof.
  intros Hop Hnone Hknown Hd Hst Hm n s'.
  destruct (call_miss op key s Hnone) as (Hret & _ & _).
  assert (s' = cacheValue n op profile
                 (with_microtasks [] (missed op key s))) as Es'.
  { unfold s', run. simpl. rewrite (call_miss_state _ _ _ Hnone).
    by rewrite (microtasks_missed_known op key s d pr _ Hop Hknown Hd Hst), Hm. }
  assert (cache op s' !! id profile = Some n) as Hid.
  { rewrite Es', cache_cacheValue. unfold assigns.
    rewrite (bool_decide_eq_true_2 (op = op)) by done.
    by rewrite (bool_decide_eq_true_2 (id profile = id profile)). }
  assert (∀ mail, email profile = Some mail → truthy (Some mail) = true →
                  cache op s' !! mail = Some n) as Hmail.
  { intros mail Hmail Ht. rewrite Es', cache_cacheValue. unfold assigns.
    rewrite Hmail, Ht, (bool_decide_eq_true_2 (op = op)) by done.
    rewrite (bool_decide_eq_true_2 (Some mail = Some mail)) by done.
    by rewrite orb_true_r. }
  split; [done|]. split.
  { rewrite Es', fetches_cacheValue. simpl. apply fetches_missed. }
  split; [done|]. split; [done|].
  intros evs alt Halt.
  assert (is_Some (cache op s' !! alt)) as Hsome.
  { destruct Halt as [->|[Hma Ht]]; [by rewrite Hid | by rewrite (Hmail alt)]. }
  destruct (cache_run_is_Some evs s' op alt Hsome) as [f Hf].
  exists f. by rewrite (call_hit op alt _ f Hf).
Qed.

Lemma known_profile_cross_indexes_witness :
  cache Photo (run [Call Photo "ann@example.org"; Microtask] (run annResolved initial))
    !! "u1" = Some 1%nat.
Proof.
  exact (proj1 (proj2 (proj2
           (known_profile_cross_indexes (run annResolved initial) Photo "ann@example.org"
              0%nat
              (mkPromise (Fulfilled (VProfile (buildProfile enabledUser))) []
                 (Some (Profile, "ann@example.org")))
              (buildProfile enabledUser)
              ltac:(discriminate) eq_refl eq_refl eq_refl eq_refl eq_refl)))).
Defined.

End CacheMore.

(* ===================================================================== *)
(** ** The caches: a future that is never cross-indexed                   *)
(* ===================================================================== *)

Section CacheAlone.

Import Cache CacheSeeding.
Implicit Types (s : State) (c op : Op) (key : string) (p q value f n : nat).
Implicit Types (pr : Promise) (r : Reaction) (j : Job).

















End CacheAlone.

(** The photo asked for before the profile was known is not found by
    Ann's id, although her profile has been resolved since; asking by the
    id fetches it again. *)
Example photo_by_id_fetches_again :
  let s := Cache.run photoBeforeProfile Cache.initial in
  Cache.photosCache s !! "u1" = None ∧
  Cache.fetches (Cache.call Cache.Photo "u1" s).2
  = [(Cache.Photo, "ann@example.org"); (Cache.Profile, "ann@example.org");
     (Cache.Photo, "u1")].
Proof. by vm_compute. Qed.

(* ===================================================================== *)
(** ** What [resolveProfile] makes of a batch entry                       *)
(* ===================================================================== *)

Section ProfileEntry.

(** X14.  [resolveProfile] takes a batch entry whose status is below 400
    for a success as soon as the entry has a body, whatever error that
    body carries, and builds the profile from it; when the entry has no
    body, or [null] for one, it throws a [TypeError] instead.  For a
    status of 400 or more it throws a plain [Error] (its name is "Error"
    for every such status, 404 included).  The message of that error is
    the service's message when that is a non-empty string, the string
    JavaScript makes of the message when it is any other truthy value,
    and the status as JavaScript prints it in all other cases. *)
Theorem resolveProfile_reads_entry (entry : BatchResponse) :
  (number_value (res_status entry) < 400 →
   (∀ data, res_body entry = Some data →
      resolveProfileInternal (Ok entry) = Ok (buildProfile (user data))) ∧
   (res_body entry = None →
      ∃ e, resolveProfileInternal (Ok entry) = Throw e ∧ name e = "TypeError")) ∧
  (400 ≤ number_value (res_status entry) →
   ∃ e, resolveProfileInternal (Ok entry) = Throw e ∧
        name e = "Error" ∧
        (∀ data m, res_body entry = Some data → error_message data = Text m →
           m ≠ "" → message e = m) ∧
        (∀ data coerced, res_body entry = Some data →
           error_message data = Other coerced → message e = coerced) ∧
        (unexplained entry → message e = number_text (res_status entry))).
Proof.
  unfold resolveProfileInternal, unexplained; simpl. split; intros Hs.
  - rewrite (proj2 (Z.ltb_lt _ _) Hs). split.
    + by intros data ->.
    + intros ->. by eexists.
  - rewrite (proj2 (Z.ltb_ge _ _) Hs). eexists. split; [done|]. split; [done|].
    unfold message_or_status. simpl.
    destruct (res_body entry) as [data|].
    + repeat split.
      * intros ? m [= <-] -> Hm. simpl.
        by destruct (String.eqb_spec m "").
      * by intros ? coerced [= <-] ->.
      * by intros [-> | ->].
    + repeat split; done.
Qed.

Lemma resolveProfile_reads_entry_witness :
  resolveProfileInternal
    (Ok (mkBatchResponse "1" 304 (Some (mkBatchBody (Text "x") enabledUser))))
  = Ok (buildProfile enabledUser)
  ∧ ∃ e, resolveProfileInternal
           (Ok (mkBatchResponse "2" 404 (Some (mkBatchBody (Text "") enabledUser))))
         = Throw e
         ∧ message e = "404".
Proof.
  split.
  - refine (proj1 (proj1 (resolveProfile_reads_entry
                            (mkBatchResponse "1" 304
                               (Some (mkBatchBody (Text "x") enabledUser)))) _)
                  _ eq_refl).
    simpl. lia.
  - destruct (proj2 (resolveProfile_reads_entry
                       (mkBatchResponse "2" 404
                          (Some (mkBatchBody (Text "") enabledUser)))))
      as (e & He & _ & _ & _ & Hm); [simpl; lia|].
    exists e. split; [exact He | apply Hm; simpl; by right].
Defined.

End ProfileEntry.
